(** * SFF unpacker: directory parser, filename sanitizer, extraction loop

    A shallow embedding of the three core functions of [app.py]
    ([parse_sff], [sanitize_filename], [extract_all]) and the properties
    of them that the specification states.

    Conventions of the embedding:
    - a Python [bytes] object is a [list byte];
    - a Python [str] is the list of its Unicode code points ([N]);
    - positions, lengths and offsets are [nat]; the 32-bit size field is [N];
    - a Python exception is a [Raise] result; a loop that is cut by the
      fuel of its model is [OutOfFuel]. *)

From Stdlib Require Import NArith Lia List.
From Stdlib Require Import Strings.Byte.
From stdpp Require Import base list.

Local Open Scope nat_scope.

(** ** Python values *)

Abbreviation bytes := (list byte).
Abbreviation str := (list N).

Inductive exn := StructError | OSError.

Inductive res (A : Type) : Type :=
| Ret (a : A)
| Raise (e : exn)
| OutOfFuel.
Arguments Ret {A} a.
Arguments Raise {A} e.
Arguments OutOfFuel {A}.

(** [l[lo:hi]] for [0 <= lo <= hi]; like Python it clips at the end of [l]. *)
Definition slice {A : Type} (l : list A) (lo hi : nat) : list A :=
  take (hi - lo) (drop lo l).

(** [struct.unpack] of one little-endian unsigned 32-bit integer: raises
    [struct.error] unless [b] has exactly four bytes. *)
Definition struct_unpack_u32le (b : bytes) : res N :=
  match b with
  | [b0; b1; b2; b3] =>
      Ret (Byte.to_N b0 + 256 * Byte.to_N b1
           + 65536 * Byte.to_N b2 + 16777216 * Byte.to_N b3)%N
  | _ => Raise StructError
  end.

(** [b.split(NUL)[0]]: the bytes before the first null byte. *)
Fixpoint split_nul_head (b : bytes) : bytes :=
  match b with
  | [] => []
  | x :: r => if (Byte.to_N x =? 0)%N then [] else x :: split_nul_head r
  end.

Definition REPLACEMENT_CHARACTER : N := 65533.

(** [b.decode(ascii, errors=replace)]: a byte above 127 becomes U+FFFD. *)
Definition decode_ascii_replace (b : bytes) : str :=
  map (fun x => if (Byte.to_N x <? 128)%N then Byte.to_N x
                else REPLACEMENT_CHARACTER) b.

(** [not s] for a string. *)
Definition is_empty {A : Type} (s : list A) : bool :=
  match s with [] => true | _ => false end.

(** ** parse_sff *)

Record entry := { filename : str; size : N }.

Definition ENTRY_SIZE : nat := 136.
Definition SENTINEL : N := 3435973836.  (* 0xCCCCCCCC *)

(** The [while] loop of [parse_sff]; [fuel] bounds the iterations. *)
Fixpoint parse_loop (fuel : nat) (data : bytes) (entries : list entry)
    (offset : nat) : res (list entry * nat) :=
  match fuel with
  | O => OutOfFuel
  | S fuel' =>
      if offset + ENTRY_SIZE <=? length data then
        match struct_unpack_u32le (slice data offset (offset + 4)) with
        | Ret sz =>
            if (sz =? 0)%N || (sz =? SENTINEL)%N then Ret (entries, offset)
            else
              let name_bytes := slice data (offset + 4) (offset + 132) in
              let fname := decode_ascii_replace (split_nul_head name_bytes) in
              if is_empty fname then Ret (entries, offset)
              else
                parse_loop fuel' data
                  (entries ++ [{| filename := fname; size := sz |}])
                  (offset + ENTRY_SIZE)
        | Raise e => Raise e
        | OutOfFuel => OutOfFuel
        end
      else Ret (entries, offset)
  end.

(** [parse_sff_data] is the body of [parse_sff] after the file was read. *)
Definition parse_sff_data (data : bytes) : res (list entry * nat) :=
  parse_loop (S (length data)) data [] 0.

(** [src] is what [open(filepath, rb)] and [f.read()] give: [None] when
    the file cannot be opened or read. *)
Definition parse_sff (src : option bytes) : res (list entry * nat) :=
  match src with
  | None => Raise OSError
  | Some data => parse_sff_data data
  end.

(** ** sanitize_filename *)

(** The Unicode character database is not part of the program: the two
    predicates [str.isprintable] and whitespace (as [str.strip] sees it)
    are fixed here on ASCII and taken from [UnicodeData] above U+007F. *)
Class UnicodeData := {
  ucd_isprintable : N -> bool;
  ucd_isspace : N -> bool
}.

(** The code points of backslash, slash, colon, asterisk, question mark,
    double quote, less-than, greater-than and vertical bar. *)
Definition RESERVED : str := [92; 47; 58; 42; 63; 34; 60; 62; 124]%N.

(** The code points of the literal [_unnamed]. *)
Definition UNNAMED : str := [95; 117; 110; 110; 97; 109; 101; 100]%N.

Section Sanitizer.
Context {UD : UnicodeData}.

Definition isprintable (c : N) : bool :=
  if (c <? 128)%N then (32 <=? c)%N && (c <? 127)%N else ucd_isprintable c.

Definition isspace (c : N) : bool :=
  if (c <? 128)%N
  then ((9 <=? c)%N && (c <=? 13)%N) || ((28 <=? c)%N && (c <=? 32)%N)
  else ucd_isspace c.

(** [c in RESERVED] for a one-character [c]. *)
Definition is_reserved (c : N) : bool := existsb (N.eqb c) RESERVED.

Fixpoint lstrip (s : str) : str :=
  match s with
  | [] => []
  | c :: r => if isspace c then lstrip r else s
  end.

Definition rstrip (s : str) : str := rev (lstrip (rev s)).

(** [s.strip()] *)
Definition strip (s : str) : str := rstrip (lstrip s).

Definition sanitize_filename (name : str) : str :=
  let cleaned :=
    List.filter (fun c => isprintable c && negb (is_reserved c)) name in
  let s := strip cleaned in
  if is_empty s then UNNAMED else s.

(** A character that the filter of [sanitize_filename] keeps. *)
Definition clean_char (c : N) : Prop :=
  isprintable c = true /\ is_reserved c = false.
End Sanitizer.

(** ** extract_all *)

(** [s.replace(backslash, slash)] *)
Definition replace_backslash (s : str) : str :=
  map (fun c => if (c =? 92)%N then 47%N else c) s.

(** [s.split(slash)]: never the empty list. *)
Fixpoint split_slash (s : str) : list str :=
  match s with
  | [] => [[]]
  | c :: r =>
      if (c =? 47)%N then [] :: split_slash r
      else match split_slash r with
           | [] => [[c]]
           | h :: t => (c :: h) :: t
           end
  end.

(** [all(p in (empty, _unnamed) for p in parts)] *)
Definition all_unnamed (parts : list str) : bool :=
  forallb (fun p => bool_decide (p = []) || bool_decide (p = UNNAMED)) parts.

(** [pathlib] and the operating system's files are collaborators of the
    program; the loop is written against these two interfaces. *)
Class PathLib (P : Type) := {
  joinpath : P -> list str -> P;
  parent : P -> P
}.

Inductive io (FS : Type) : Type :=
| Done (fs : FS)
| Failed (fs : FS).
Arguments Done {FS} fs.
Arguments Failed {FS} fs.

Class FileSystem (P FS : Type) := {
  (** [p.mkdir(parents=True, exist_ok=True)] *)
  mkdir_parents : P -> FS -> io FS;
  (** [with open(p, wb) as out: out.write(d)] *)
  write_bytes : P -> bytes -> FS -> io FS
}.

(** What the loop changes: the position of the source handle [f], the
    files, the local [skipped] and the calls made to [progress_cb]. *)
Record world (FS : Type) : Type := World {
  cursor : nat;
  disk : FS;
  skipped : nat;
  calls : list (nat * nat)
}.
Arguments World {FS} _ _ _ _.
Arguments cursor {FS} _.
Arguments disk {FS} _.
Arguments skipped {FS} _.
Arguments calls {FS} _.

Inductive status := Running | Raised (e : exn).

(** [f.read(n)] at position [pos] of a file holding [data]: the bytes read
    and the new position. A short read is not an error in Python. *)
Definition f_read (data : bytes) (pos : nat) (n : N) : bytes * nat :=
  let chunk := take (N.to_nat n) (drop pos data) in
  (chunk, pos + length chunk).

Section Extraction.
Context {UD : UnicodeData} {P FS : Type}.
Context {PL : PathLib P} {FSys : FileSystem P FS}.

(** [data]: the content of the archive file, which is open for reading
    and not written to during the run; [output_dir]: [Path(output_dir)];
    [progress_cb]: whether a callback was given.

    The loop is modelled from the point where the archive file is open:
    opening it, seeking and reading are taken to succeed, and the callback
    is taken to return. What is represented of a failure is the failure of
    the two file operations of an entry. *)
Variable data : bytes.
Variable output_dir : P.
Variable progress_cb : bool.

(** [if progress_cb: progress_cb(done, total)]: the call is recorded; what
    the caller's function does is not part of the program. *)
Definition notify (done total : nat) (log : list (nat * nat)) :
    list (nat * nat) :=
  if progress_cb then log ++ [(done, total)] else log.

Definition entry_parts (e : entry) : list str :=
  map sanitize_filename (split_slash (replace_backslash (filename e))).

(** One iteration of the [for] loop, for the entry at index [i]. *)
Definition extract_entry (total i : nat) (e : entry) (w : world FS) :
    world FS * status :=
  let '(file_data, pos) := f_read data (cursor w) (size e) in
  let parts := entry_parts e in
  if all_unnamed parts then
    (World pos (disk w) (S (skipped w)) (notify (i + 1) total (calls w)),
     Running)
  else
    let out_path := joinpath output_dir parts in
    match mkdir_parents (parent out_path) (disk w) with
    | Failed fs => (World pos fs (skipped w) (calls w), Raised OSError)
    | Done fs =>
        match write_bytes out_path file_data fs with
        | Failed fs' => (World pos fs' (skipped w) (calls w), Raised OSError)
        | Done fs' =>
            (World pos fs' (skipped w) (notify (i + 1) total (calls w)),
             Running)
        end
    end.

(** [for i, entry in enumerate(entries)], from index [i] on. *)
Fixpoint extract_loop (total i : nat) (entries : list entry)
    (w : world FS) : world FS * status :=
  match entries with
  | [] => (w, Running)
  | e :: rest =>
      match extract_entry total i e w with
      | (w', Running) => extract_loop total (S i) rest w'
      | (w', Raised x) => (w', Raised x)
      end
  end.

(** [extract_all(filepath, entries, data_offset, output_dir, progress_cb)]
    on the files [fs0]: the world it leaves and what the call gives. *)
Definition extract_all (entries : list entry) (data_offset : nat)
    (fs0 : FS) : world FS * res nat :=
  let total := length entries in
  let w0 := World data_offset fs0 0 [] in
  match extract_loop total 0 entries w0 with
  | (w, Running) => (w, Ret (skipped w))
  | (w, Raised x) => (w, Raise x)
  end.

(** The sizes declared by a run of entries, added up. *)
Definition sum_sizes (entries : list entry) : nat :=
  foldr (fun e n => N.to_nat (size e) + n) 0 entries.

(** What the specification asks of a short read, for comparison with the
    loop: when the loop reaches an entry [e] that declares more bytes than
    remain, the call raises and the files are those the earlier entries
    left. *)
Definition aborts_on_truncation (entries : list entry) (data_offset : nat)
    (fs0 : FS) : Prop :=
  forall pre e post w,
    entries = pre ++ e :: post ->
    extract_loop (length entries) 0 pre (World data_offset fs0 0 [])
    = (w, Running) ->
    length data - cursor w < N.to_nat (size e) ->
    exists w' x,
      extract_all entries data_offset fs0 = (w', Raise x)
      /\ disk w' = disk w.
End Extraction.

(** ** The record table as the specification describes it

    These definitions follow the format description, not the loop: the
    table is a sequence of full 136-byte records; a record is accepted when
    its size is neither zero nor the sentinel and its decoded name is not
    empty. They are compared with [parse_sff] below. *)

Definition record_at (data : bytes) (k : nat) : bytes :=
  slice data (ENTRY_SIZE * k) (ENTRY_SIZE * k + ENTRY_SIZE).

Definition records (data : bytes) : list bytes :=
  map (record_at data) (seq 0 (length data / ENTRY_SIZE)).

Definition record_size (r : bytes) : N :=
  match r with
  | b0 :: b1 :: b2 :: b3 :: _ =>
      (Byte.to_N b0 + 256 * Byte.to_N b1
       + 65536 * Byte.to_N b2 + 16777216 * Byte.to_N b3)%N
  | _ => 0%N
  end.

Definition record_name (r : bytes) : str :=
  decode_ascii_replace (split_nul_head (slice r 4 132)).

Definition accepted (r : bytes) : bool :=
  negb (record_size r =? 0)%N && negb (record_size r =? SENTINEL)%N
  && negb (is_empty (record_name r)).

Fixpoint take_while {A : Type} (f : A -> bool) (l : list A) : list A :=
  match l with
  | [] => []
  | x :: r => if f x then x :: take_while f r else []
  end.

Definition accepted_prefix (data : bytes) : list bytes :=
  take_while accepted (records data).

Definition entry_of_record (r : bytes) : entry :=
  {| filename := record_name r; size := record_size r |}.

(** Two buffers that differ at most in the last four bytes (offsets 132 to
    135) of their 136-byte slots. *)
Definition agree_outside_padding (d1 d2 : bytes) : Prop :=
  length d1 = length d2 /\
  forall i, i mod ENTRY_SIZE < 132 -> d1 !! i = d2 !! i.

#[export] Instance byte_eq_decision : EqDecision byte := Byte.byte_eq_dec.

(** A check of [agree_outside_padding] that runs. *)
Definition agree_outside_padding_check (d1 d2 : bytes) : bool :=
  bool_decide (length d1 = length d2)
  && forallb
       (fun i => (132 <=? i mod ENTRY_SIZE) || bool_decide (d1 !! i = d2 !! i))
       (seq 0 (length d1)).

(** ** An in-memory file system, to run the loop on concrete archives

    Paths are lists of segments below one root; [joinpath] drops single-dot
    segments as [pathlib] does. The files are an association list from
    paths to nodes, in order of creation. A directory cannot be opened for
    writing and a file cannot be used as a directory. A double dot is kept
    as an ordinary name and names have no length limit, unlike on a real
    system: the instance is used on archives without such names only. *)

Inductive node := File (content : bytes) | Dir.

Abbreviation memfs := (list (list str * node)).

Fixpoint mem_lookup (p : list str) (fs : memfs) : option node :=
  match fs with
  | [] => None
  | (q, n) :: r => if bool_decide (p = q) then Some n else mem_lookup p r
  end.

Fixpoint mem_insert (p : list str) (n : node) (fs : memfs) : memfs :=
  match fs with
  | [] => [(p, n)]
  | (q, m) :: r =>
      if bool_decide (p = q) then (p, n) :: r else (q, m) :: mem_insert p n r
  end.

Definition mem_joinpath (d : list str) (parts : list str) : list str :=
  d ++ List.filter (fun p => negb (bool_decide (p = [46%N]))) parts.

Fixpoint mem_mkdir (pre rest : list str) (fs : memfs) : io memfs :=
  match rest with
  | [] => Done fs
  | s :: rest' =>
      let q := pre ++ [s] in
      match mem_lookup q fs with
      | Some (File _) => Failed fs
      | _ => mem_mkdir q rest' (mem_insert q Dir fs)
      end
  end.

Definition mem_write (p : list str) (d : bytes) (fs : memfs) : io memfs :=
  match mem_lookup p fs with
  | Some Dir => Failed fs
  | _ =>
      match removelast p with
      | [] => Done (mem_insert p (File d) fs)
      | q => match mem_lookup q fs with
             | Some Dir => Done (mem_insert p (File d) fs)
             | _ => Failed fs
             end
      end
  end.

#[export] Instance mem_pathlib : PathLib (list str) :=
  {| joinpath := mem_joinpath; parent := @removelast str |}.

#[export] Instance mem_filesystem : FileSystem (list str) memfs :=
  {| mkdir_parents := mem_mkdir []; write_bytes := mem_write |}.

(** A character table for the code points [parse_sff] can produce: above
    ASCII only U+FFFD, which is printable and not white space. *)
Definition replacement_ucd : UnicodeData :=
  {| ucd_isprintable := fun c => (c =? REPLACEMENT_CHARACTER)%N;
     ucd_isspace := fun _ => false |}.

(** ** Concrete archives *)

Definition byte_of (n : N) : byte :=
  match Byte.of_N n with Some b => b | None => x00 end.

Definition u32le (n : N) : bytes :=
  [byte_of (n mod 256); byte_of (n / 256 mod 256);
   byte_of (n / 65536 mod 256); byte_of (n / 16777216 mod 256)]%N.

(** One directory record: size, name padded with nulls to 128 bytes, and
    four trailing bytes [pad]. *)
Definition mk_record (sz : N) (name : str) (pad : byte) : bytes :=
  u32le sz ++ take 128 (map byte_of name ++ replicate 128 x00)
  ++ replicate 4 pad.

(** a.txt *)
Definition name_a_txt : str := [97; 46; 116; 120; 116]%N.
(** b/c.bin *)
Definition name_b_c_bin : str := [98; 47; 99; 46; 98; 105; 110]%N.
(** b.bin *)
Definition name_b_bin : str := [98; 46; 98; 105; 110]%N.
(** out *)
Definition out_dir : list str := [[111; 117; 116]%N].

(** HELLOxyz *)
Definition payload_hello_xyz : bytes := [x48; x45; x4c; x4c; x4f; x78; x79; x7a].

Definition sample_table (pad : byte) : bytes :=
  mk_record 5 name_a_txt pad ++ mk_record 3 name_b_c_bin pad
  ++ mk_record SENTINEL [] pad.

Definition sample_entries : list entry :=
  [{| filename := name_a_txt; size := 5 |};
   {| filename := name_b_c_bin; size := 3 |}].

(** An archive whose second entry declares 100 bytes where 40 remain. *)
Definition short_entries : list entry :=
  [{| filename := name_a_txt; size := 5 |};
   {| filename := name_b_bin; size := 100 |}].

Definition short_payload : bytes :=
  [x48; x45; x4c; x4c; x4f] ++ replicate 40 x2a.

(** An archive whose second entry has a name made of reserved characters
    only: a.txt, then two question marks, then b/c.bin. *)
Definition mixed_entries : list entry :=
  [{| filename := name_a_txt; size := 5 |};
   {| filename := [63; 63]%N; size := 2 |};
   {| filename := name_b_c_bin; size := 3 |}].

Definition mixed_payload : bytes :=
  [x48; x45; x4c; x4c; x4f; x2d; x2d; x78; x79; x7a].

(** An archive whose second entry needs the first entry's file as a
    directory: a.txt, then a.txt/x. *)
Definition clash_entries : list entry :=
  [{| filename := name_a_txt; size := 5 |};
   {| filename := [97; 46; 116; 120; 116; 47; 120]%N; size := 3 |}].

(** * Properties *)

(** ** Slices *)

Lemma slice_lookup {A : Type} (l : list A) (lo hi i : nat) :
  slice l lo hi !! i = if decide (i < hi - lo) then l !! (lo + i) else None.
Proof.
  unfold slice. destruct (decide (i < hi - lo)) as [Hi | Hi].
  - rewrite lookup_take_lt by exact Hi. apply lookup_drop.
  - apply lookup_take_ge. lia.
Qed.

Lemma slice_length {A : Type} (l : list A) (lo hi : nat) :
  hi <= length l -> length (slice l lo hi) = hi - lo.
Proof.
  intros H. unfold slice. rewrite length_take, length_drop. lia.
Qed.

Lemma slice_slice {A : Type} (l : list A) (a b c d : nat) :
  d <= b - a -> slice (slice l a b) c d = slice l (a + c) (a + d).
Proof.
  intros H. apply list_eq. intros i. rewrite !slice_lookup.
  destruct (decide (i < d - c)) as [Hi | Hi].
  - rewrite decide_True by lia. rewrite decide_True by lia.
    f_equal. lia.
  - rewrite decide_False by lia. reflexivity.
Qed.

Lemma slice_take {A : Type} (l : list A) (lo hi n : nat) :
  hi <= n -> slice (take n l) lo hi = slice l lo hi.
Proof.
  intros H. apply list_eq. intros i. rewrite !slice_lookup.
  destruct (decide (i < hi - lo)); [| reflexivity].
  apply lookup_take_lt. lia.
Qed.

(** ** The directory parser *)

Lemma full_records_bound (data : bytes) (k : nat) :
  k < length data / ENTRY_SIZE <-> ENTRY_SIZE * k + ENTRY_SIZE <= length data.
Proof.
  unfold ENTRY_SIZE.
  pose proof (Nat.div_mod_eq (length data) 136) as Hd.
  pose proof (Nat.mod_upper_bound (length data) 136) as Hm.
  lia.
Qed.

Lemma record_at_length (data : bytes) (k : nat) :
  k < length data / ENTRY_SIZE -> length (record_at data k) = ENTRY_SIZE.
Proof.
  intros H. apply full_records_bound in H. unfold record_at.
  rewrite slice_length by exact H. lia.
Qed.

(** The loop guard leaves four bytes for [struct.unpack]. *)
Lemma unpack_in_record (data : bytes) (k : nat) :
  k < length data / ENTRY_SIZE ->
  struct_unpack_u32le (slice data (ENTRY_SIZE * k) (ENTRY_SIZE * k + 4))
  = Ret (record_size (record_at data k)).
Proof.
  intros H. pose proof (record_at_length data k H) as Hlen.
  replace (slice data (ENTRY_SIZE * k) (ENTRY_SIZE * k + 4))
    with (slice (record_at data k) 0 4).
  2:{ unfold record_at. rewrite slice_slice by (unfold ENTRY_SIZE; lia).
      f_equal. lia. }
  destruct (record_at data k) as [|b0 [|b1 [|b2 [|b3 r]]]];
    try (unfold ENTRY_SIZE in Hlen; simpl in Hlen; lia).
  reflexivity.
Qed.

Lemma name_in_record (data : bytes) (k : nat) :
  slice data (ENTRY_SIZE * k + 4) (ENTRY_SIZE * k + 132)
  = slice (record_at data k) 4 132.
Proof.
  unfold record_at. rewrite slice_slice by (unfold ENTRY_SIZE; lia).
  reflexivity.
Qed.

(** What the loop computes from slot [k] on, given fuel for the slots left. *)
Lemma parse_loop_records (data : bytes) :
  forall fuel k entries,
    length data / ENTRY_SIZE - k < fuel ->
    parse_loop fuel data entries (ENTRY_SIZE * k)
    = Ret (entries
             ++ map entry_of_record
                  (take_while accepted
                     (map (record_at data)
                        (seq k (length data / ENTRY_SIZE - k)))),
           ENTRY_SIZE
           * (k + length
                    (take_while accepted
                       (map (record_at data)
                          (seq k (length data / ENTRY_SIZE - k)))))).
Proof.
  induction fuel as [|fuel IH]; intros k entries Hfuel; [lia |].
  cbn [parse_loop].
  destruct (decide (k < length data / ENTRY_SIZE)) as [Hk | Hk].
  - pose proof (proj1 (full_records_bound data k) Hk) as Hb.
    rewrite (proj2 (Nat.leb_le _ _) Hb).
    rewrite unpack_in_record by exact Hk.
    rewrite name_in_record.
    replace (length data / ENTRY_SIZE - k)
      with (S (length data / ENTRY_SIZE - S k)) by lia.
    cbn [seq map take_while]. unfold accepted at 1 3.
    fold (record_name (record_at data k)).
    destruct (record_size (record_at data k) =? 0)%N; cbn [negb andb orb].
    { rewrite app_nil_r, Nat.add_0_r. reflexivity. }
    destruct (record_size (record_at data k) =? SENTINEL)%N;
      cbn [negb andb orb].
    { rewrite app_nil_r, Nat.add_0_r. reflexivity. }
    destruct (is_empty (record_name (record_at data k))); cbn [negb].
    { rewrite app_nil_r, Nat.add_0_r. reflexivity. }
    replace (ENTRY_SIZE * k + ENTRY_SIZE) with (ENTRY_SIZE * S k) by lia.
    rewrite IH by lia. cbn [map length].
    rewrite <- app_assoc. cbn [app]. unfold entry_of_record at 2.
    f_equal. f_equal. lia.
  - assert (Hb : ~ ENTRY_SIZE * k + ENTRY_SIZE <= length data)
      by (rewrite <- full_records_bound; exact Hk).
    rewrite (proj2 (Nat.leb_gt _ _)) by lia.
    replace (length data / ENTRY_SIZE - k) with 0 by lia.
    cbn [seq map take_while length]. rewrite app_nil_r, Nat.add_0_r.
    reflexivity.
Qed.

Lemma parse_sff_data_records (data : bytes) :
  parse_sff_data data
  = Ret (map entry_of_record (accepted_prefix data),
         ENTRY_SIZE * length (accepted_prefix data)).
Proof.
  unfold parse_sff_data, accepted_prefix, records.
  change 0 with (ENTRY_SIZE * 0) at 1.
  rewrite parse_loop_records.
  - rewrite Nat.sub_0_r. reflexivity.
  - assert (length data / ENTRY_SIZE <= length data)
      by (apply Nat.Div0.div_le_upper_bound; unfold ENTRY_SIZE; lia).
    lia.
Qed.

Lemma take_while_length_le {A : Type} (f : A -> bool) (l : list A) :
  length (take_while f l) <= length l.
Proof.
  induction l as [|x l IH]; cbn [take_while length]; [lia |].
  destruct (f x); cbn [length]; lia.
Qed.

(** The first rejected element fixes the length of the accepted prefix. *)
Lemma take_while_first_rejected {A : Type} (f : A -> bool) (g : nat -> A) :
  forall k start n,
    k < n ->
    (forall j, j < k -> f (g (start + j)) = true) ->
    f (g (start + k)) = false ->
    length (take_while f (map g (seq start n))) = k.
Proof.
  induction k as [|k IH]; intros start n Hn Hbefore Hk.
  - destruct n as [|n]; [lia |]. cbn [seq map take_while].
    rewrite Nat.add_0_r in Hk. rewrite Hk. reflexivity.
  - destruct n as [|n]; [lia |]. cbn [seq map take_while].
    pose proof (Hbefore 0 ltac:(lia)) as H0. rewrite Nat.add_0_r in H0.
    rewrite H0. cbn [length]. f_equal.
    apply IH; [lia | |].
    + intros j Hj. replace (S start + j) with (start + S j) by lia.
      apply Hbefore. lia.
    + replace (S start + k) with (start + S k) by lia. exact Hk.
Qed.

Lemma sentinel_not_accepted (r : bytes) :
  record_size r = SENTINEL -> accepted r = false.
Proof.
  intros H. unfold accepted. rewrite H. reflexivity.
Qed.

Lemma decode_ascii_replace_range (b : bytes) :
  Forall (fun c => (c < 128)%N \/ c = REPLACEMENT_CHARACTER)
    (decode_ascii_replace b).
Proof.
  unfold decode_ascii_replace. apply Forall_map, Forall_forall.
  intros x _. cbn beta.
  destruct (Byte.to_N x <? 128)%N eqn:E; [left | right; reflexivity].
  apply N.ltb_lt. exact E.
Qed.

(** *** Bytes 132 to 135 of a record are never read *)

Lemma record_size_take (r : bytes) :
  record_size (take 132 r) = record_size r.
Proof.
  destruct r as [|b0 [|b1 [|b2 [|b3 r]]]]; reflexivity.
Qed.

Lemma record_name_take (r : bytes) :
  record_name (take 132 r) = record_name r.
Proof.
  unfold record_name. rewrite slice_take by lia. reflexivity.
Qed.

Lemma accepted_take (r : bytes) : accepted (take 132 r) = accepted r.
Proof.
  unfold accepted. rewrite record_size_take, record_name_take. reflexivity.
Qed.

Lemma entry_of_record_take (r : bytes) :
  entry_of_record (take 132 r) = entry_of_record r.
Proof.
  unfold entry_of_record. rewrite record_size_take, record_name_take.
  reflexivity.
Qed.

Lemma record_at_agree (d1 d2 : bytes) (k : nat) :
  agree_outside_padding d1 d2 ->
  take 132 (record_at d1 k) = take 132 (record_at d2 k).
Proof.
  intros [_ Hag]. apply list_eq. intros i.
  destruct (decide (i < 132)) as [Hi | Hi].
  - rewrite !lookup_take_lt by exact Hi. unfold record_at.
    rewrite !slice_lookup.
    destruct (decide (i < ENTRY_SIZE * k + ENTRY_SIZE - ENTRY_SIZE * k));
      [| reflexivity].
    apply Hag.
    replace (ENTRY_SIZE * k + i) with (i + k * ENTRY_SIZE) by lia.
    rewrite Nat.Div0.mod_add. rewrite Nat.mod_small by (unfold ENTRY_SIZE; lia).
    exact Hi.
  - rewrite !lookup_take_ge by lia. reflexivity.
Qed.

Lemma accepted_prefix_agree (d1 d2 : bytes) (l : list nat) :
  agree_outside_padding d1 d2 ->
  map entry_of_record (take_while accepted (map (record_at d1) l))
  = map entry_of_record (take_while accepted (map (record_at d2) l))
  /\ length (take_while accepted (map (record_at d1) l))
     = length (take_while accepted (map (record_at d2) l)).
Proof.
  intros Hag. induction l as [|k l [IH1 IH2]]; [split; reflexivity |].
  cbn [map take_while].
  pose proof (record_at_agree d1 d2 k Hag) as Hk.
  rewrite <- (accepted_take (record_at d1 k)).
  rewrite <- (accepted_take (record_at d2 k)). rewrite Hk.
  destruct (accepted (take 132 (record_at d2 k))); [| split; reflexivity].
  cbn [map length].
  rewrite <- (entry_of_record_take (record_at d1 k)).
  rewrite <- (entry_of_record_take (record_at d2 k)). rewrite Hk.
  split; congruence.
Qed.

Lemma agree_outside_padding_check_sound (d1 d2 : bytes) :
  agree_outside_padding_check d1 d2 = true -> agree_outside_padding d1 d2.
Proof.
  unfold agree_outside_padding_check. intros H.
  apply andb_prop in H as [Hlen Hall].
  apply bool_decide_eq_true in Hlen. split; [exact Hlen |].
  intros i Hi. destruct (decide (i < length d1)) as [Hlt | Hge].
  - rewrite forallb_forall in Hall.
    specialize (Hall i). rewrite in_seq in Hall.
    specialize (Hall ltac:(lia)).
    apply orb_prop in Hall as [Hpad | Heq].
    + apply Nat.leb_le in Hpad. lia.
    + apply bool_decide_eq_true in Heq. exact Heq.
  - rewrite !lookup_ge_None_2 by lia. reflexivity.
Qed.

(** C3. For every byte buffer, [parse_sff] returns a payload offset equal
    to 136 times the number of entries it returns. *)
Theorem parse_sff_payload_offset (data : bytes) :
  exists entries offset,
    parse_sff (Some data) = Ret (entries, offset)
    /\ offset = 136 * length entries.
Proof.
  exists (map entry_of_record (accepted_prefix data)).
  exists (ENTRY_SIZE * length (accepted_prefix data)).
  split; [apply parse_sff_data_records |].
  rewrite length_map. reflexivity.
Qed.

(** C2. For every byte buffer, [parse_sff] terminates and returns as many
    entries as there are accepted full 136-byte records before the first
    record with size zero, size equal to the sentinel or an empty decoded
    name (or before the point where fewer than 136 bytes remain); the
    entries are those records, in order. In particular, when the record in
    slot [k] carries the sentinel size and the slots before it are
    accepted, exactly [k] entries are returned. *)
Theorem parse_sff_entry_count (data : bytes) :
  exists entries offset,
    parse_sff (Some data) = Ret (entries, offset)
    /\ entries = map entry_of_record (accepted_prefix data)
    /\ length entries = length (accepted_prefix data)
    /\ length entries <= length data / 136
    /\ forall k,
         k < length data / 136 ->
         (forall j, j < k -> accepted (record_at data j) = true) ->
         record_size (record_at data k) = SENTINEL ->
         length entries = k.
Proof.
  exists (map entry_of_record (accepted_prefix data)).
  exists (ENTRY_SIZE * length (accepted_prefix data)).
  split; [apply parse_sff_data_records |].
  split; [reflexivity |].
  rewrite length_map. split; [reflexivity |].
  unfold accepted_prefix, records. split.
  - etransitivity; [apply take_while_length_le |].
    rewrite length_map, length_seq. reflexivity.
  - intros k Hk Hbefore Hsent.
    apply (take_while_first_rejected accepted (record_at data) k 0);
      [exact Hk | exact Hbefore |].
    apply sentinel_not_accepted. exact Hsent.
Qed.

Lemma parse_sff_entry_count_witness :
  exists entries offset,
    parse_sff (Some (sample_table x00 ++ payload_hello_xyz))
    = Ret (entries, offset)
    /\ length entries = 2.
Proof.
  destruct (parse_sff_entry_count (sample_table x00 ++ payload_hello_xyz))
    as (entries & offset & Hrun & _ & _ & _ & Hsentinel).
  exists entries, offset. split; [exact Hrun |].
  apply (Hsentinel 2).
  - vm_compute. lia.
  - intros j Hj.
    destruct j as [|[|j]]; [vm_compute; reflexivity .. | lia].
  - vm_compute. reflexivity.
Defined.

(** C8. [parse_sff] never fails on the content of the buffer: whenever the
    loop guard holds, the four bytes handed to [struct.unpack] are there
    and the size is decoded; the name is decoded byte by byte, a byte above
    127 giving U+FFFD; every buffer parses to a result, and the only
    failure is a source that cannot be opened or read. *)
Theorem parse_sff_never_faults :
  (forall data offset,
      offset + ENTRY_SIZE <= length data ->
      exists sz,
        struct_unpack_u32le (slice data offset (offset + 4)) = Ret sz)
  /\ (forall b,
        length (decode_ascii_replace b) = length b
        /\ Forall (fun c => (c < 128)%N \/ c = REPLACEMENT_CHARACTER)
             (decode_ascii_replace b))
  /\ (forall data, exists entries offset,
        parse_sff (Some data) = Ret (entries, offset))
  /\ (forall src e, parse_sff src = Raise e -> src = None /\ e = OSError).
Proof.
  split; [| split; [| split]].
  - intros data offset Hguard.
    assert (Hlen : length (slice data offset (offset + 4)) = 4).
    { rewrite slice_length by (unfold ENTRY_SIZE in Hguard; lia). lia. }
    destruct (slice data offset (offset + 4))
      as [|b0 [|b1 [|b2 [|b3 [|b4 r]]]]]; simpl in Hlen; try lia.
    eexists. reflexivity.
  - intros b. split.
    + unfold decode_ascii_replace. apply length_map.
    + apply decode_ascii_replace_range.
  - intros data. eexists. eexists. apply parse_sff_data_records.
  - intros [data |] e H.
    + cbn [parse_sff] in H. rewrite parse_sff_data_records in H.
      discriminate H.
    + cbn [parse_sff] in H. injection H as <-. split; reflexivity.
Qed.

Lemma parse_sff_never_faults_witness :
  136 + ENTRY_SIZE <= length (sample_table x00)
  /\ exists sz,
       struct_unpack_u32le (slice (sample_table x00) 136 (136 + 4)) = Ret sz.
Proof.
  split; [vm_compute; lia |].
  apply (proj1 parse_sff_never_faults (sample_table x00) 136).
  vm_compute. lia.
Defined.

(** C10. The result of [parse_sff] does not depend on bytes 132 to 135 of
    any 136-byte record: two buffers of the same length that agree at
    every other position parse to the same entries and the same payload
    offset. *)
Theorem parse_sff_ignores_padding (d1 d2 : bytes) :
  agree_outside_padding d1 d2 ->
  parse_sff (Some d1) = parse_sff (Some d2).
Proof.
  intros Hag. cbn [parse_sff]. rewrite !parse_sff_data_records.
  unfold accepted_prefix, records.
  destruct Hag as [Hlen Hpos]. rewrite <- Hlen.
  destruct (accepted_prefix_agree d1 d2
              (seq 0 (length d1 / ENTRY_SIZE)) (conj Hlen Hpos)) as [He Hl].
  rewrite He, Hl. reflexivity.
Qed.

Lemma parse_sff_ignores_padding_witness :
  agree_outside_padding (sample_table x00) (sample_table xff)
  /\ sample_table x00 <> sample_table xff
  /\ parse_sff (Some (sample_table x00)) = parse_sff (Some (sample_table xff)).
Proof.
  assert (H : agree_outside_padding (sample_table x00) (sample_table xff)).
  { apply agree_outside_padding_check_sound. vm_compute. reflexivity. }
  split; [exact H |]. split.
  - intros E. apply (f_equal (fun l => l !! 132)) in E. vm_compute in E.
    discriminate E.
  - apply (parse_sff_ignores_padding _ _ H).
Defined.

(** ** The filename sanitizer *)

Section SanitizerProperties.
Context {UD : UnicodeData}.

Lemma lstrip_head (s : str) :
  lstrip s = [] \/ exists c r, lstrip s = c :: r /\ isspace c = false.
Proof.
  induction s as [|c s IH]; [left; reflexivity |].
  cbn [lstrip]. destruct (isspace c) eqn:E; [exact IH |].
  right. exists c, s. split; [reflexivity | exact E].
Qed.

Lemma lstrip_fixed (c : N) (r : str) :
  isspace c = false -> lstrip (c :: r) = c :: r.
Proof. intros E. cbn [lstrip]. rewrite E. reflexivity. Qed.

Lemma lstrip_idempotent (s : str) : lstrip (lstrip s) = lstrip s.
Proof.
  destruct (lstrip_head s) as [E | (c & r & E & Hc)]; rewrite E.
  - reflexivity.
  - apply lstrip_fixed. exact Hc.
Qed.

Lemma lstrip_snoc (u : str) (c : N) :
  isspace c = false -> lstrip (u ++ [c]) = lstrip u ++ [c].
Proof.
  intros Hc. induction u as [|x u IH].
  - cbn [app lstrip]. rewrite Hc. reflexivity.
  - cbn [app lstrip]. destruct (isspace x); [exact IH | reflexivity].
Qed.

Lemma rstrip_cons (c : N) (r : str) :
  isspace c = false -> rstrip (c :: r) = c :: rstrip r.
Proof.
  intros Hc. unfold rstrip. cbn [rev].
  rewrite lstrip_snoc by exact Hc. rewrite rev_app_distr. reflexivity.
Qed.

Lemma rstrip_idempotent (s : str) : rstrip (rstrip s) = rstrip s.
Proof.
  unfold rstrip. rewrite rev_involutive, lstrip_idempotent. reflexivity.
Qed.

Lemma strip_idempotent (s : str) : strip (strip s) = strip s.
Proof.
  unfold strip.
  destruct (lstrip_head s) as [E | (c & r & E & Hc)]; rewrite E.
  - reflexivity.
  - rewrite (rstrip_cons c r Hc), (lstrip_fixed c _ Hc).
    rewrite <- (rstrip_cons c r Hc). apply rstrip_idempotent.
Qed.

Lemma lstrip_Forall (Q : N -> Prop) (s : str) :
  Forall Q s -> Forall Q (lstrip s).
Proof.
  induction 1 as [|c s Hc Hs IH]; cbn [lstrip]; [constructor |].
  destruct (isspace c); [exact IH | constructor; assumption].
Qed.

Lemma strip_Forall (Q : N -> Prop) (s : str) :
  Forall Q s -> Forall Q (strip s).
Proof.
  intros H. unfold strip, rstrip.
  apply Forall_rev, lstrip_Forall, Forall_rev, lstrip_Forall, H.
Qed.

Lemma cleaned_Forall (name : str) :
  Forall clean_char
    (List.filter (fun c => isprintable c && negb (is_reserved c)) name).
Proof.
  apply Forall_forall. intros c Hc. apply list_elem_of_In in Hc.
  apply filter_In in Hc as [_ Hc].
  apply andb_prop in Hc as [Hp Hr]. split; [exact Hp |].
  apply negb_true_iff. exact Hr.
Qed.

Lemma filter_clean_id (s : str) :
  Forall clean_char s ->
  List.filter (fun c => isprintable c && negb (is_reserved c)) s = s.
Proof.
  induction 1 as [|c s [Hp Hr] Hs IH]; [reflexivity |].
  cbn [List.filter]. rewrite Hp, Hr. cbn [negb andb]. rewrite IH.
  reflexivity.
Qed.

Lemma unnamed_clean : Forall clean_char UNNAMED.
Proof. unfold UNNAMED. repeat constructor. Qed.

Lemma sanitize_unnamed : sanitize_filename UNNAMED = UNNAMED.
Proof. reflexivity. Qed.

Lemma sanitize_filename_clean (name : str) :
  Forall clean_char (sanitize_filename name).
Proof.
  unfold sanitize_filename.
  destruct (is_empty _); [apply unnamed_clean |].
  apply strip_Forall, cleaned_Forall.
Qed.

Lemma sanitize_filename_nonempty (name : str) :
  sanitize_filename name <> [].
Proof.
  unfold sanitize_filename.
  destruct (strip _) as [|c r]; cbn [is_empty]; discriminate.
Qed.

(** C6. For every input string, the segment [sanitize_filename] returns
    has no character of the reserved set and no non-printable character;
    so has every segment the extraction loop builds from an entry name. *)
Theorem sanitize_filename_no_reserved (name : str) :
  Forall (fun c => isprintable c = true /\ ~ In c RESERVED)
    (sanitize_filename name)
  /\ forall e : entry,
       Forall (Forall (fun c => isprintable c = true /\ ~ In c RESERVED))
         (entry_parts e).
Proof.
  assert (Hseg : forall s,
             Forall (fun c => isprintable c = true /\ ~ In c RESERVED)
               (sanitize_filename s)).
  { intros s. eapply Forall_impl; [apply sanitize_filename_clean |].
    intros c [Hp Hr]. split; [exact Hp |]. intros Hin.
    unfold is_reserved in Hr.
    assert (existsb (N.eqb c) RESERVED = true) as Ht.
    { apply existsb_exists. exists c. split; [exact Hin | apply N.eqb_refl]. }
    congruence. }
  split; [apply Hseg |].
  intros e. unfold entry_parts. apply Forall_map, Forall_forall.
  intros s _. apply Hseg.
Qed.

(** C7. Sanitization is idempotent: [sanitize_filename] applied to its
    own result returns that result. *)
Theorem sanitize_filename_idempotent (x : str) :
  sanitize_filename (sanitize_filename x) = sanitize_filename x.
Proof.
  assert (H : sanitize_filename x = UNNAMED
              \/ exists s, sanitize_filename x = s /\ strip s = s
                           /\ Forall clean_char s /\ is_empty s = false).
  { unfold sanitize_filename. destruct (is_empty _) eqn:E; [left | right].
    - reflexivity.
    - eexists. split; [reflexivity |]. split; [apply strip_idempotent |].
      split; [apply strip_Forall, cleaned_Forall | exact E]. }
  destruct H as [H | (s & H & Hstrip & Hclean & Hne)]; rewrite H.
  - apply sanitize_unnamed.
  - unfold sanitize_filename.
    rewrite (filter_clean_id s Hclean), Hstrip, Hne. reflexivity.
Qed.
End SanitizerProperties.

(** ** The extraction loop *)

Lemma sum_sizes_app (a b : list entry) :
  sum_sizes (a ++ b) = sum_sizes a + sum_sizes b.
Proof.
  induction a as [|x a IH]; [reflexivity |].
  cbn [app sum_sizes foldr] in *. fold (sum_sizes (a ++ b)).
  fold (sum_sizes a). lia.
Qed.

Section ExtractionProperties.
Context {UD : UnicodeData} {P FS : Type}.
Context {PL : PathLib P} {FSys : FileSystem P FS}.
Variable data : bytes.
Variable output_dir : P.

Lemma f_read_length (pos : nat) (n : N) :
  length (fst (f_read data pos n)) = min (N.to_nat n) (length data - pos).
Proof.
  unfold f_read. cbn [fst]. rewrite length_take, length_drop. reflexivity.
Qed.

Lemma f_read_slice (pos : nat) (n : N) :
  fst (f_read data pos n) = slice data pos (pos + N.to_nat n).
Proof.
  unfold f_read, slice. cbn [fst]. f_equal. lia.
Qed.

(** The handle moves by the number of bytes read whatever happens to the
    entry afterwards. *)
Lemma extract_entry_cursor (cb : bool) (total i : nat) (e : entry)
    (w : world FS) :
  cursor (fst (extract_entry data output_dir cb total i e w))
  = cursor w + min (N.to_nat (size e)) (length data - cursor w).
Proof.
  rewrite <- f_read_length. unfold extract_entry, f_read. cbn [fst].
  destruct (all_unnamed _); [reflexivity |].
  destruct (mkdir_parents _ _); [| reflexivity].
  destruct (write_bytes _ _ _); reflexivity.
Qed.

Lemma extract_entry_skipped (cb : bool) (total i : nat) (e : entry)
    (w : world FS) :
  skipped (fst (extract_entry data output_dir cb total i e w))
  = if all_unnamed (entry_parts e) then S (skipped w) else skipped w.
Proof.
  unfold extract_entry, f_read.
  destruct (all_unnamed _); [reflexivity |].
  destruct (mkdir_parents _ _); [| reflexivity].
  destruct (write_bytes _ _ _); reflexivity.
Qed.

Lemma extract_entry_calls (cb : bool) (total i : nat) (e : entry)
    (w w' : world FS) :
  extract_entry data output_dir cb total i e w = (w', Running) ->
  calls w' = notify cb (i + 1) total (calls w).
Proof.
  unfold extract_entry, f_read.
  destruct (all_unnamed _); [intros [= <-]; reflexivity |].
  destruct (mkdir_parents _ _); [| discriminate].
  destruct (write_bytes _ _ _); [| discriminate].
  intros [= <-]. reflexivity.
Qed.

(** The loop over [pre ++ post] is the loop over [pre] followed, unless it
    raised, by the loop over [post]. *)
Lemma extract_loop_app (cb : bool) (total : nat) (pre post : list entry) :
  forall i w,
    extract_loop data output_dir cb total i (pre ++ post) w
    = match extract_loop data output_dir cb total i pre w with
      | (w', Running) =>
          extract_loop data output_dir cb total (i + length pre) post w'
      | (w', Raised x) => (w', Raised x)
      end.
Proof.
  induction pre as [|e pre IH]; intros i w.
  - cbn [app extract_loop length]. rewrite Nat.add_0_r. reflexivity.
  - cbn [app extract_loop length].
    destruct (extract_entry _ _ _ _ _ _ _) as [w' [|x]]; [| reflexivity].
    rewrite IH. replace (S i + length pre) with (i + S (length pre)) by lia.
    reflexivity.
Qed.

Lemma extract_loop_cursor (cb : bool) (total : nat) (entries : list entry) :
  forall i w w',
    extract_loop data output_dir cb total i entries w = (w', Running) ->
    cursor w + sum_sizes entries <= length data ->
    cursor w' = cursor w + sum_sizes entries.
Proof.
  induction entries as [|e entries IH]; intros i w w' Hrun Hlen.
  - cbn in Hrun. injection Hrun as <-. cbn. lia.
  - cbn [extract_loop] in Hrun. cbn [sum_sizes foldr] in Hlen |- *.
    fold (sum_sizes entries) in Hlen |- *.
    pose proof (extract_entry_cursor cb total i e w) as Hc.
    destruct (extract_entry _ _ _ _ _ _ _) as [w1 [|x]]; [| discriminate].
    cbn [fst] in Hc. apply IH in Hrun; lia.
Qed.

Lemma extract_loop_calls (total : nat) (entries : list entry) :
  forall i w w',
    extract_loop data output_dir true total i entries w = (w', Running) ->
    calls w'
    = calls w ++ map (fun j => (j, total)) (seq (i + 1) (length entries)).
Proof.
  induction entries as [|e entries IH]; intros i w w' Hrun.
  - cbn in Hrun. injection Hrun as <-. cbn. rewrite app_nil_r. reflexivity.
  - cbn [extract_loop] in Hrun.
    destruct (extract_entry _ _ _ _ _ _ _) as [w1 [|x]] eqn:E;
      [| discriminate].
    apply extract_entry_calls in E. apply IH in Hrun.
    rewrite Hrun, E. unfold notify. cbn [length seq map].
    rewrite <- app_assoc. cbn [app].
    replace (S i + 1) with (S (i + 1)) by lia. reflexivity.
Qed.

Lemma extract_loop_skipped (cb : bool) (total : nat) (entries : list entry) :
  forall i w w',
    extract_loop data output_dir cb total i entries w = (w', Running) ->
    skipped w'
    = skipped w
      + length (List.filter (fun e => all_unnamed (entry_parts e)) entries).
Proof.
  induction entries as [|e entries IH]; intros i w w' Hrun.
  - cbn in Hrun. injection Hrun as <-. cbn. lia.
  - cbn [extract_loop] in Hrun.
    pose proof (extract_entry_skipped cb total i e w) as Hs.
    destruct (extract_entry _ _ _ _ _ _ _) as [w1 [|x]]; [| discriminate].
    cbn [fst] in Hs. apply IH in Hrun. rewrite Hrun, Hs.
    cbn [List.filter]. destruct (all_unnamed (entry_parts e));
      cbn [length]; lia.
Qed.

Lemma all_unnamed_spec (parts : list str) :
  all_unnamed parts = true <-> Forall (fun p => p = [] \/ p = UNNAMED) parts.
Proof.
  unfold all_unnamed. rewrite forallb_forall, Forall_forall.
  split; intros H p Hp.
  - apply list_elem_of_In in Hp. specialize (H p Hp).
    apply orb_prop in H as [H | H]; apply bool_decide_eq_true in H; auto.
  - apply list_elem_of_In in Hp. specialize (H p Hp).
    apply orb_true_iff.
    destruct H as [H | H]; [left | right]; apply bool_decide_eq_true; exact H.
Qed.
End ExtractionProperties.

Section ExtractionClaims.
Context {UD : UnicodeData} {P FS : Type}.
Context {PL : PathLib P} {FSys : FileSystem P FS}.
Variable data : bytes.
Variable output_dir : P.

(** C4. When extraction of an archive of [N] entries, run with a progress
    callback, returns, the callback was called exactly [N] times, once
    per entry: the calls are (1, N), (2, N), ..., (N, N) in this order,
    whether the entries were written or skipped. *)
Theorem progress_called_once_per_entry (entries : list entry)
    (data_offset : nat) (fs0 : FS) (w : world FS) (k : nat) :
  extract_all data output_dir true entries data_offset fs0 = (w, Ret k) ->
  calls w = map (fun j => (j, length entries)) (seq 1 (length entries))
  /\ length (calls w) = length entries.
Proof.
  unfold extract_all. intros Hrun.
  destruct (extract_loop _ _ _ _ _ _ _) as [w1 [|x]] eqn:E;
    [| discriminate].
  injection Hrun as <- _.
  apply extract_loop_calls in E. cbn [calls app Nat.add] in E.
  split; [exact E |]. rewrite E, length_map, length_seq. reflexivity.
Qed.

(** C5. An entry is skipped exactly when every segment of its sanitized
    name is empty or [_unnamed]: for such an entry the loop writes no
    file, adds one to the skipped count, and goes on with the next
    entry; an entry with any other segment leaves the skipped count as it
    was. The count returned is the number of such entries. *)
Theorem unrecoverable_name_is_skipped (cb : bool) (total i : nat)
    (e : entry) (rest : list entry) (w : world FS) :
  (all_unnamed (entry_parts e) = true
   <-> Forall (fun p => p = [] \/ p = UNNAMED) (entry_parts e))
  /\ (all_unnamed (entry_parts e) = true ->
      exists w',
        extract_entry data output_dir cb total i e w = (w', Running)
        /\ disk w' = disk w
        /\ skipped w' = S (skipped w)
        /\ extract_loop data output_dir cb total i (e :: rest) w
           = extract_loop data output_dir cb total (S i) rest w')
  /\ (all_unnamed (entry_parts e) = false ->
      skipped (fst (extract_entry data output_dir cb total i e w))
      = skipped w)
  /\ (forall entries data_offset fs0 w' k,
        extract_all data output_dir cb entries data_offset fs0
        = (w', Ret k) ->
        k = length
              (List.filter (fun e => all_unnamed (entry_parts e)) entries)).
Proof.
  split; [apply all_unnamed_spec |]. split; [| split].
  - intros Hall. cbn [extract_loop]. unfold extract_entry, f_read.
    rewrite Hall. eexists. repeat split; reflexivity.
  - intros Hall. rewrite extract_entry_skipped, Hall. reflexivity.
  - intros entries data_offset fs0 w' k. unfold extract_all. intros Hrun.
    destruct (extract_loop _ _ _ _ _ _ _) as [w1 [|x]] eqn:E;
      [| discriminate].
    injection Hrun as <- <-.
    apply extract_loop_skipped in E. cbn [skipped] in E. lia.
Qed.

(** C9. The payload of every entry is consumed, skipped or not: when the
    source holds the bytes the entries declare and the loop reaches entry
    [e] after the entries [pre], the handle stands at the payload offset
    plus the sizes of [pre], the bytes read for [e] are the [size e]
    bytes at that position, and after [e] the handle has moved by
    [size e], whatever the names of the entries. *)
Theorem cursor_follows_declared_sizes (cb : bool) (entries : list entry)
    (data_offset : nat) (fs0 : FS) (pre : list entry) (e : entry)
    (post : list entry) (w : world FS) :
  entries = pre ++ e :: post ->
  data_offset + sum_sizes entries <= length data ->
  extract_loop data output_dir cb (length entries) 0 pre
    (World data_offset fs0 0 []) = (w, Running) ->
  cursor w = data_offset + sum_sizes pre
  /\ fst (f_read data (cursor w) (size e))
     = slice data (data_offset + sum_sizes pre)
         (data_offset + sum_sizes pre + N.to_nat (size e))
  /\ length (fst (f_read data (cursor w) (size e))) = N.to_nat (size e)
  /\ cursor (fst (extract_entry data output_dir cb (length entries)
                    (length pre) e w))
     = data_offset + sum_sizes (pre ++ [e]).
Proof.
  intros -> Hlen Hrun.
  pose proof (sum_sizes_app pre (e :: post)) as Hsum.
  pose proof (sum_sizes_app pre [e]) as Hsum'.
  cbn [sum_sizes foldr] in Hsum, Hsum'. fold (sum_sizes post) in Hsum.
  apply extract_loop_cursor in Hrun; cbn [cursor] in *; [| lia].
  split; [exact Hrun |]. split; [| split].
  - rewrite f_read_slice, Hrun. reflexivity.
  - rewrite f_read_length. lia.
  - rewrite extract_entry_cursor. lia.
Qed.

(** C1, as the code has it. For every entry the loop asks for [size]
    bytes and gets the bytes that remain, at most [size]; a short read
    raises nothing. With fewer bytes than declared the entry is handled as
    any other, with the bytes that were read: skipped, the files unchanged,
    when its name is unrecoverable; otherwise, when creating its
    directories and writing succeed, written as a file of those bytes; in
    both cases the loop goes on with the next entry. The entry is handled
    on the files the earlier entries left: nothing but its own directory
    creation and write is applied to them. *)
Theorem short_read_is_not_an_error (cb : bool) (total i : nat) (e : entry)
    (w : world FS) :
  let file_data := fst (f_read data (cursor w) (size e)) in
  let out_path := joinpath output_dir (entry_parts e) in
  length file_data = min (N.to_nat (size e)) (length data - cursor w)
  /\ (all_unnamed (entry_parts e) = true ->
      exists w', extract_entry data output_dir cb total i e w = (w', Running)
                 /\ disk w' = disk w)
  /\ (all_unnamed (entry_parts e) = false ->
      forall fs1 fs2,
        mkdir_parents (parent out_path) (disk w) = Done fs1 ->
        write_bytes out_path file_data fs1 = Done fs2 ->
        exists w', extract_entry data output_dir cb total i e w = (w', Running)
                   /\ disk w' = fs2)
  /\ (forall pre post w0,
        extract_loop data output_dir cb total i pre w0 = (w, Running) ->
        extract_loop data output_dir cb total i (pre ++ e :: post) w0
        = match extract_entry data output_dir cb total (i + length pre) e w
          with
          | (w', Running) =>
              extract_loop data output_dir cb total (S (i + length pre))
                post w'
          | (w', Raised x) => (w', Raised x)
          end).
Proof.
  cbn zeta. split; [apply f_read_length |]. split; [| split].
  - intros Hall. unfold extract_entry, f_read. rewrite Hall.
    eexists. split; reflexivity.
  - intros Hall fs1 fs2 Hmk Hwr. unfold extract_entry, f_read in *.
    cbn [fst] in Hwr. rewrite Hall, Hmk, Hwr. eexists. split; reflexivity.
  - intros pre post w0 Hpre. rewrite extract_loop_app, Hpre.
    reflexivity.
Qed.
End ExtractionClaims.

(** ** The loop on concrete archives *)

Lemma progress_called_once_per_entry_witness :
  let r := extract_all (UD := replacement_ucd) mixed_payload out_dir true
             mixed_entries 0 ([] : memfs) in
  r = (fst r, Ret 1) /\ calls (fst r) = [(1, 3); (2, 3); (3, 3)].
Proof.
  cbn zeta.
  assert (H : extract_all (UD := replacement_ucd) mixed_payload out_dir true
                mixed_entries 0 ([] : memfs)
              = (fst (extract_all (UD := replacement_ucd) mixed_payload
                        out_dir true mixed_entries 0 ([] : memfs)), Ret 1))
    by (vm_compute; reflexivity).
  split; [exact H |].
  exact (proj1 (progress_called_once_per_entry (UD := replacement_ucd)
                  mixed_payload out_dir mixed_entries 0 [] _ 1 H)).
Defined.

Lemma unrecoverable_name_is_skipped_witness :
  let e := {| filename := [63; 63]%N; size := 2 |} in
  let w := World 5 ([] : memfs) 0 [(1, 3)] in
  all_unnamed (entry_parts (UD := replacement_ucd) e) = true
  /\ exists w',
       extract_entry (UD := replacement_ucd) mixed_payload out_dir true 3 1 e w
       = (w', Running)
       /\ disk w' = disk w
       /\ skipped w' = 1
       /\ extract_loop (UD := replacement_ucd) mixed_payload out_dir true 3 1
            [e] w
          = extract_loop (UD := replacement_ucd) mixed_payload out_dir true 3 2
              [] w'.
Proof.
  cbn zeta.
  assert (H : all_unnamed
                (entry_parts (UD := replacement_ucd)
                   {| filename := [63; 63]%N; size := 2 |}) = true)
    by (vm_compute; reflexivity).
  split; [exact H |].
  exact (proj1 (proj2 (unrecoverable_name_is_skipped (UD := replacement_ucd)
                         mixed_payload out_dir true 3 1
                         {| filename := [63; 63]%N; size := 2 |} []
                         (World 5 ([] : memfs) 0 [(1, 3)]))) H).
Defined.

Lemma cursor_follows_declared_sizes_witness :
  let pre := [{| filename := name_a_txt; size := 5 |};
              {| filename := [63; 63]%N; size := 2 |}] in
  let e := {| filename := name_b_c_bin; size := 3 |} in
  let r := extract_loop (UD := replacement_ucd) mixed_payload out_dir true 3 0
             pre (World 0 ([] : memfs) 0 []) in
  r = (fst r, Running)
  /\ cursor (fst r) = 7
  /\ fst (f_read mixed_payload (cursor (fst r)) (size e)) = [x78; x79; x7a].
Proof.
  cbn zeta.
  set (r := extract_loop (UD := replacement_ucd) mixed_payload out_dir true 3 0
              _ (World 0 ([] : memfs) 0 [])).
  assert (H : r = (fst r, Running)) by (vm_compute; reflexivity).
  assert (Hlen : 0 + sum_sizes mixed_entries <= length mixed_payload)
    by (vm_compute; lia).
  split; [exact H |].
  destruct (cursor_follows_declared_sizes (UD := replacement_ucd)
              mixed_payload out_dir true mixed_entries 0 []
              [{| filename := name_a_txt; size := 5 |};
               {| filename := [63; 63]%N; size := 2 |}]
              {| filename := name_b_c_bin; size := 3 |} [] (fst r)
              eq_refl Hlen H) as (Hcur & Hread & _).
  split; [exact Hcur | exact Hread].
Defined.

(** C1 as the specification states it fails: the second entry of
    [short_entries] declares 100 bytes where 40 remain, and the call
    returns after writing those 40 bytes. *)
Lemma truncated_entry_is_written :
  ~ aborts_on_truncation (UD := replacement_ucd) short_payload out_dir true
      short_entries 0 ([] : memfs).
Proof.
  intros Habort.
  set (r := extract_loop (UD := replacement_ucd) short_payload out_dir true 2 0
              [{| filename := name_a_txt; size := 5 |}]
              (World 0 ([] : memfs) 0 [])).
  assert (Hr : r = (fst r, Running)) by (vm_compute; reflexivity).
  assert (Hshort : length short_payload - cursor (fst r) < N.to_nat 100)
    by (vm_compute; lia).
  destruct (Habort [{| filename := name_a_txt; size := 5 |}]
              {| filename := name_b_bin; size := 100 |} [] (fst r)
              eq_refl Hr Hshort) as (w' & x & Hrun & _).
  vm_compute in Hrun. discriminate Hrun.
Qed.

Lemma short_read_is_not_an_error_witness :
  let e := {| filename := name_b_bin; size := 100 |} in
  let w := World 5 ([] : memfs) 0 [] in
  length short_payload - cursor w < N.to_nat (size e)
  /\ exists w',
       extract_entry (UD := replacement_ucd) short_payload out_dir true 2 1 e w
       = (w', Running)
       /\ disk w' = [(out_dir, Dir);
                      (out_dir ++ [name_b_bin], File (replicate 40 x2a))].
Proof.
  cbn zeta. split; [vm_compute; lia |].
  apply (proj1 (proj2 (proj2 (short_read_is_not_an_error
                                (UD := replacement_ucd) short_payload out_dir
                                true 2 1
                                {| filename := name_b_bin; size := 100 |}
                                (World 5 ([] : memfs) 0 []))))
           ltac:(vm_compute; reflexivity) [(out_dir, Dir)]).
  - vm_compute. reflexivity.
  - vm_compute. reflexivity.
Defined.

(** The example of the specification: a.txt and b/c.bin are written with
    HELLO and xyz, nothing is skipped, progress is reported twice. *)
Example extract_hello_xyz :
  extract_all (UD := replacement_ucd) payload_hello_xyz out_dir true
    sample_entries 0 ([] : memfs)
  = (World 8
       [(out_dir, Dir);
        (out_dir ++ [name_a_txt], File [x48; x45; x4c; x4c; x4f]);
        (out_dir ++ [[98%N]], Dir);
        (out_dir ++ [[98%N]; [99; 46; 98; 105; 110]%N], File [x78; x79; x7a])]
       0 [(1, 2); (2, 2)],
     Ret 0).
Proof. vm_compute. reflexivity. Qed.

(** The archive whose second entry declares 100 bytes where 40 remain: both
    files are written, the second with the 40 bytes that were left. *)
Example extract_short_archive :
  extract_all (UD := replacement_ucd) short_payload out_dir true
    short_entries 0 ([] : memfs)
  = (World 45
       [(out_dir, Dir);
        (out_dir ++ [name_a_txt], File [x48; x45; x4c; x4c; x4f]);
        (out_dir ++ [name_b_bin], File (replicate 40 x2a))]
       0 [(1, 2); (2, 2)],
     Ret 0).
Proof. vm_compute. reflexivity. Qed.

(** * Further properties of the parser *)

Lemma take_while_Forall {A : Type} (f : A -> bool) (l : list A) :
  Forall (fun x => f x = true) (take_while f l).
Proof.
  induction l as [|x l IH]; cbn [take_while]; [constructor |].
  destruct (f x) eqn:E; constructor; assumption.
Qed.

(** The accepted prefix of the slots from [s] on is a run of slots. *)
Lemma take_while_map_seq {A : Type} (f : A -> bool) (g : nat -> A) :
  forall m s,
    take_while f (map g (seq s m))
    = map g (seq s (length (take_while f (map g (seq s m))))).
Proof.
  induction m as [|m IH]; intros s; [reflexivity |].
  cbn [seq map take_while]. destruct (f (g s)); [| reflexivity].
  cbn [length seq map]. f_equal. apply IH.
Qed.

Lemma take_while_stop {A : Type} (f : A -> bool) (g : nat -> A) :
  forall m s,
    length (take_while f (map g (seq s m))) < m ->
    f (g (s + length (take_while f (map g (seq s m))))) = false.
Proof.
  induction m as [|m IH]; intros s Hlt; [cbn in Hlt; lia |].
  cbn [seq map take_while] in *. destruct (f (g s)) eqn:E.
  - cbn [length] in *. rewrite Nat.add_succ_r. apply (IH (S s)). lia.
  - cbn [length]. rewrite Nat.add_0_r. exact E.
Qed.

Lemma map_lookup {A B : Type} (f : A -> B) (l : list A) (i : nat) :
  map f l !! i = f <$> (l !! i).
Proof.
  revert i. induction l as [|x l IH]; intros [|i]; cbn; auto.
Qed.

Lemma accepted_prefix_run (data : bytes) :
  accepted_prefix data
  = map (record_at data) (seq 0 (length (accepted_prefix data)))
  /\ length (accepted_prefix data) <= length data / ENTRY_SIZE.
Proof.
  unfold accepted_prefix, records. split.
  - apply take_while_map_seq.
  - etransitivity; [apply take_while_length_le |].
    rewrite length_map, length_seq. reflexivity.
Qed.

Lemma parse_sff_inv (data : bytes) (entries : list entry) (offset : nat) :
  parse_sff (Some data) = Ret (entries, offset) ->
  entries = map entry_of_record (accepted_prefix data)
  /\ offset = ENTRY_SIZE * length (accepted_prefix data).
Proof.
  cbn [parse_sff]. rewrite parse_sff_data_records.
  intros [= <- <-]. split; reflexivity.
Qed.

Lemma record_size_bound (r : bytes) : (record_size r < 4294967296)%N.
Proof.
  destruct r as [|b0 [|b1 [|b2 [|b3 r]]]]; cbn [record_size]; try lia.
  pose proof (Byte.to_N_bounded b0). pose proof (Byte.to_N_bounded b1).
  pose proof (Byte.to_N_bounded b2). pose proof (Byte.to_N_bounded b3).
  lia.
Qed.

Lemma split_nul_head_length (b : bytes) :
  length (split_nul_head b) <= length b.
Proof.
  induction b as [|x b IH]; cbn [split_nul_head length]; [lia |].
  destruct (Byte.to_N x =? 0)%N; cbn [length]; lia.
Qed.

Lemma split_nul_head_no_nul (b : bytes) :
  Forall (fun x => Byte.to_N x <> 0%N) (split_nul_head b).
Proof.
  induction b as [|x b IH]; cbn [split_nul_head]; [constructor |].
  destruct (Byte.to_N x =? 0)%N eqn:E; constructor; [| exact IH].
  apply N.eqb_neq. exact E.
Qed.

Lemma record_name_chars (r : bytes) :
  length (record_name r) <= 128
  /\ Forall (fun c => (0 < c < 128)%N \/ c = REPLACEMENT_CHARACTER)
       (record_name r).
Proof.
  unfold record_name, decode_ascii_replace. split.
  - rewrite length_map. etransitivity; [apply split_nul_head_length |].
    unfold slice. rewrite length_take. lia.
  - apply Forall_map.
    eapply Forall_impl; [apply split_nul_head_no_nul |].
    intros x Hx. cbn beta in *.
    destruct (Byte.to_N x <? 128)%N eqn:E; [left | right; reflexivity].
    apply N.ltb_lt in E. lia.
Qed.

(** X1. Every entry [parse_sff] returns has a size between 1 and
    4294967295 that is not the sentinel, and a name of 1 to 128 characters,
    none of them NUL, each an ASCII character or U+FFFD. *)
Theorem parsed_entries_well_formed (data : bytes) (entries : list entry)
    (offset : nat) :
  parse_sff (Some data) = Ret (entries, offset) ->
  Forall (fun e =>
            (0 < size e < 4294967296)%N
            /\ size e <> SENTINEL
            /\ 1 <= length (filename e) <= 128
            /\ Forall (fun c => (0 < c < 128)%N \/ c = REPLACEMENT_CHARACTER)
                 (filename e))
    entries.
Proof.
  intros Hrun. apply parse_sff_inv in Hrun as [-> _].
  apply Forall_map. unfold accepted_prefix.
  eapply Forall_impl; [apply take_while_Forall |].
  intros r Hacc. cbn [entry_of_record filename size].
  unfold accepted in Hacc.
  apply andb_prop in Hacc as [Hacc Hname].
  apply andb_prop in Hacc as [Hzero Hsent].
  apply negb_true_iff, N.eqb_neq in Hzero.
  apply negb_true_iff, N.eqb_neq in Hsent.
  apply negb_true_iff in Hname.
  pose proof (record_size_bound r) as Hb.
  destruct (record_name_chars r) as [Hlen Hchars].
  split; [lia |]. split; [exact Hsent |]. split; [| exact Hchars].
  split; [| exact Hlen].
  destruct (record_name r); [discriminate Hname | cbn [length]; lia].
Qed.

Lemma parsed_entries_well_formed_witness :
  parse_sff (Some (sample_table x00 ++ payload_hello_xyz))
  = Ret (sample_entries, 272)
  /\ Forall (fun e => (0 < size e < 4294967296)%N /\ size e <> SENTINEL)
       sample_entries.
Proof.
  assert (H : parse_sff (Some (sample_table x00 ++ payload_hello_xyz))
              = Ret (sample_entries, 272)) by (vm_compute; reflexivity).
  split; [exact H |].
  eapply Forall_impl; [apply (parsed_entries_well_formed _ _ _ H) |].
  intros e (Hsz & Hsent & _). split; assumption.
Defined.

(** X2. Entries keep the order of the table: the entry at index [k] is
    decoded from the record in slot [k], its size from bytes 0 to 3 and its
    name from bytes 4 to 131 of that slot, and the slot lies within the
    buffer. *)
Theorem parsed_entry_position (data : bytes) (entries : list entry)
    (offset k : nat) (e : entry) :
  parse_sff (Some data) = Ret (entries, offset) ->
  entries !! k = Some e ->
  136 * k + 136 <= offset
  /\ offset <= length data
  /\ struct_unpack_u32le (slice data (136 * k) (136 * k + 4)) = Ret (size e)
  /\ filename e
     = decode_ascii_replace
         (split_nul_head (slice data (136 * k + 4) (136 * k + 132))).
Proof.
  intros Hrun Hk. apply parse_sff_inv in Hrun as [-> ->].
  destruct (accepted_prefix_run data) as [Hrun Hle].
  rewrite Hrun in Hk. rewrite !map_lookup in Hk.
  destruct (seq 0 (length (accepted_prefix data)) !! k) as [j |] eqn:Hj;
    [| discriminate Hk].
  apply lookup_seq in Hj as [-> Hlt]. cbn [Nat.add] in Hk.
  cbn [fmap option_fmap option_map] in Hk. injection Hk as <-.
  assert (Hfull : k < length data / ENTRY_SIZE) by lia.
  pose proof (proj1 (full_records_bound data _) Hfull) as Hk136.
  assert (Hlast : length (accepted_prefix data) = 0
                  \/ length (accepted_prefix data) - 1
                     < length data / ENTRY_SIZE) by lia.
  assert (Hoff : ENTRY_SIZE * length (accepted_prefix data) <= length data).
  { destruct Hlast as [-> | Hlast]; [lia |].
    apply full_records_bound in Hlast. unfold ENTRY_SIZE in *. lia. }
  change 136 with ENTRY_SIZE.
  split; [unfold ENTRY_SIZE; lia |]. split; [exact Hoff |]. split.
  - apply unpack_in_record. exact Hfull.
  - cbn [entry_of_record filename]. unfold record_name.
    rewrite <- name_in_record. reflexivity.
Qed.

Lemma parsed_entry_position_witness :
  parse_sff (Some (sample_table x00 ++ payload_hello_xyz))
  = Ret (sample_entries, 272)
  /\ struct_unpack_u32le
       (slice (sample_table x00 ++ payload_hello_xyz) 136 140)
     = Ret 3%N.
Proof.
  assert (H : parse_sff (Some (sample_table x00 ++ payload_hello_xyz))
              = Ret (sample_entries, 272)) by (vm_compute; reflexivity).
  split; [exact H |].
  exact (proj1 (proj2 (proj2 (parsed_entry_position _ _ _ 1
           {| filename := name_b_c_bin; size := 3 |} H eq_refl)))).
Defined.

Lemma rejected_cases (r : bytes) :
  accepted r = false ->
  record_size r = 0%N \/ record_size r = SENTINEL \/ record_name r = [].
Proof.
  unfold accepted. intros H.
  destruct (record_size r =? 0)%N eqn:E0; [left; apply N.eqb_eq, E0 |].
  destruct (record_size r =? SENTINEL)%N eqn:E1;
    [right; left; apply N.eqb_eq, E1 |].
  destruct (record_name r); [right; right; reflexivity | discriminate H].
Qed.

Lemma accepted_prefix_stop (data : bytes) :
  length (accepted_prefix data) < length data / ENTRY_SIZE ->
  accepted (record_at data (length (accepted_prefix data))) = false.
Proof.
  unfold accepted_prefix, records. intros H.
  apply (take_while_stop accepted (record_at data) _ 0 H).
Qed.

(** X3. When the parse stops with a full record still ahead, that record
    has size zero, the sentinel size or an empty name, and it lies at the
    payload offset: a read of [n] bytes at the payload offset, which is how
    the extraction loop starts, returns the first [n] bytes of that record
    followed by the rest of the buffer. *)
Theorem parse_sff_stops_at_rejected_record (data : bytes)
    (entries : list entry) (offset : nat) :
  parse_sff (Some data) = Ret (entries, offset) ->
  offset + 136 <= length data ->
  (record_size (slice data offset (offset + 136)) = 0%N
   \/ record_size (slice data offset (offset + 136)) = SENTINEL
   \/ record_name (slice data offset (offset + 136)) = [])
  /\ forall n,
       fst (f_read data offset n)
       = take (N.to_nat n)
           (slice data offset (offset + 136) ++ drop (offset + 136) data).
Proof.
  intros Hrun Hfull. apply parse_sff_inv in Hrun as [_ ->]. split.
  - apply rejected_cases. apply accepted_prefix_stop.
    apply full_records_bound. exact Hfull.
  - intros n. unfold f_read, slice. cbn [fst]. f_equal.
    replace (ENTRY_SIZE * length (accepted_prefix data) + 136
             - ENTRY_SIZE * length (accepted_prefix data)) with 136 by lia.
    rewrite <- drop_drop, take_drop. reflexivity.
Qed.

Lemma parse_sff_stops_at_rejected_record_witness :
  parse_sff (Some (sample_table x00 ++ payload_hello_xyz))
  = Ret (sample_entries, 272)
  /\ 272 + 136 <= length (sample_table x00 ++ payload_hello_xyz)
  /\ fst (f_read (sample_table x00 ++ payload_hello_xyz) 272 4)
     = [xcc; xcc; xcc; xcc].
Proof.
  assert (H : parse_sff (Some (sample_table x00 ++ payload_hello_xyz))
              = Ret (sample_entries, 272)) by (vm_compute; reflexivity).
  assert (Hlen : 272 + 136 <= length (sample_table x00 ++ payload_hello_xyz))
    by (vm_compute; lia).
  split; [exact H |]. split; [exact Hlen |].
  rewrite (proj2 (parse_sff_stops_at_rejected_record _ _ _ H Hlen) 4%N).
  vm_compute. reflexivity.
Defined.

(** X4. No entry is returned exactly when the buffer is shorter than one
    record or its first record has size zero, the sentinel size or an empty
    name. *)
Theorem parse_sff_no_entries (data : bytes) :
  parse_sff (Some data) = Ret ([], 0)
  <-> length data < 136 \/ accepted (slice data 0 136) = false.
Proof.
  cbn [parse_sff]. rewrite parse_sff_data_records.
  unfold accepted_prefix, records.
  change (slice data 0 136) with (record_at data 0).
  destruct (length data / ENTRY_SIZE) as [|m] eqn:Em.
  - cbn [seq map take_while length]. split; [intros _; left | reflexivity].
    assert (H : ~ 0 < length data / ENTRY_SIZE) by lia.
    rewrite full_records_bound in H. unfold ENTRY_SIZE in H. lia.
  - assert (H : 0 < length data / ENTRY_SIZE) by lia.
    apply full_records_bound in H. unfold ENTRY_SIZE in H.
    cbn [seq map take_while].
    destruct (accepted (record_at data 0)).
    + cbn [map length]. split; [discriminate |].
      intros [Hlen | Hacc]; [lia | discriminate Hacc].
    + cbn [map length]. split; [intros _; right |]; reflexivity.
Qed.

Lemma take_while_determined {A : Type} (f : A -> bool) (g1 g2 : nat -> A) :
  forall m1 m2 s,
    length (take_while f (map g1 (seq s m1))) < m1 ->
    length (take_while f (map g1 (seq s m1))) < m2 ->
    (forall k, k <= length (take_while f (map g1 (seq s m1))) ->
               g2 (s + k) = g1 (s + k)) ->
    take_while f (map g2 (seq s m2)) = take_while f (map g1 (seq s m1)).
Proof.
  induction m1 as [|m1 IH]; intros m2 s H1 H2 Hag; [cbn in H1; lia |].
  destruct m2 as [|m2]; [lia |].
  cbn [seq map take_while] in *.
  pose proof (Hag 0 ltac:(lia)) as H0. rewrite Nat.add_0_r in H0.
  rewrite H0. destruct (f (g1 s)); [| reflexivity].
  cbn [length] in *. f_equal. apply IH; [lia | lia |].
  intros k Hk. replace (S s + k) with (s + S k) by lia. apply Hag. lia.
Qed.

Lemma take_while_prefix {A : Type} (f : A -> bool) (g1 g2 : nat -> A) :
  forall m1 m2 s,
    m1 <= m2 ->
    (forall k, k < m1 -> g2 (s + k) = g1 (s + k)) ->
    take_while f (map g1 (seq s m1))
      `prefix_of` take_while f (map g2 (seq s m2)).
Proof.
  induction m1 as [|m1 IH]; intros m2 s Hle Hag; [apply prefix_nil |].
  destruct m2 as [|m2]; [lia |].
  cbn [seq map take_while].
  pose proof (Hag 0 ltac:(lia)) as H0. rewrite Nat.add_0_r in H0.
  rewrite H0. destruct (f (g1 s)); [| apply prefix_nil].
  apply prefix_cons. apply IH; [lia |].
  intros k Hk. replace (S s + k) with (s + S k) by lia. apply Hag. lia.
Qed.

Lemma record_at_take (data : bytes) (k n : nat) :
  ENTRY_SIZE * k + ENTRY_SIZE <= n ->
  record_at (take n data) k = record_at data k.
Proof.
  intros H. unfold record_at. apply slice_take. exact H.
Qed.

(** X5. The directory does not depend on the payload: a buffer that agrees
    with [d1] on the bytes up to and including the record at which the
    parse of [d1] stopped parses to the same entries and payload offset. *)
Theorem parse_sff_ignores_payload (d1 d2 : bytes) (entries : list entry)
    (offset : nat) :
  parse_sff (Some d1) = Ret (entries, offset) ->
  take (offset + 136) d2 = take (offset + 136) d1 ->
  parse_sff (Some d2) = Ret (entries, offset).
Proof.
  intros Hrun Hag. pose proof Hrun as Hinv.
  apply parse_sff_inv in Hinv as [_ Hoff].
  destruct (decide (offset + 136 <= length d1)) as [Hfull | Hshort].
  - assert (Hfull2 : offset + 136 <= length d2).
    { apply (f_equal length) in Hag. rewrite !length_take in Hag. lia. }
    cbn [parse_sff] in *. rewrite parse_sff_data_records in *.
    injection Hrun as <- _.
    assert (Hsame : accepted_prefix d2 = accepted_prefix d1).
    { unfold accepted_prefix, records.
      assert (Hn1 : length (accepted_prefix d1) < length d1 / ENTRY_SIZE).
      { apply full_records_bound. rewrite <- Hoff. exact Hfull. }
      assert (Hn2 : length (accepted_prefix d1) < length d2 / ENTRY_SIZE).
      { apply full_records_bound. rewrite <- Hoff. exact Hfull2. }
      apply take_while_determined; [exact Hn1 | exact Hn2 |].
      intros k Hk. cbn [Nat.add].
      change (k <= length (accepted_prefix d1)) in Hk.
      assert (Hin : ENTRY_SIZE * k + ENTRY_SIZE <= offset + 136).
      { rewrite Hoff. unfold ENTRY_SIZE. lia. }
      rewrite <- (record_at_take d2 k _ Hin).
      rewrite <- (record_at_take d1 k _ Hin). rewrite Hag. reflexivity. }
    rewrite Hsame, <- Hoff. reflexivity.
  - assert (Hd : d2 = d1).
    { rewrite (take_ge d1) in Hag by lia.
      destruct (decide (offset + 136 <= length d2)) as [H2 | H2].
      - apply (f_equal length) in Hag. rewrite length_take in Hag. lia.
      - rewrite take_ge in Hag by lia. exact Hag. }
    rewrite Hd. exact Hrun.
Qed.

Lemma parse_sff_ignores_payload_witness :
  parse_sff (Some (sample_table x00 ++ payload_hello_xyz))
  = Ret (sample_entries, 272)
  /\ parse_sff (Some (sample_table x00 ++ mixed_payload))
     = Ret (sample_entries, 272).
Proof.
  assert (H : parse_sff (Some (sample_table x00 ++ payload_hello_xyz))
              = Ret (sample_entries, 272)) by (vm_compute; reflexivity).
  split; [exact H |].
  apply (parse_sff_ignores_payload _ _ _ _ H).
  vm_compute. reflexivity.
Defined.

Lemma record_at_app (d x : bytes) (k : nat) :
  k < length d / ENTRY_SIZE -> record_at (d ++ x) k = record_at d k.
Proof.
  intros H. apply full_records_bound in H.
  rewrite <- (record_at_take (d ++ x) k (length d)) by exact H.
  rewrite take_app_length. reflexivity.
Qed.

(** X6. Appending bytes to a buffer never loses entries: the entries of
    the shorter buffer are a prefix of the entries of the longer one, and
    the payload offset does not decrease. A truncated archive thus gives
    the first entries of the full directory. *)
Theorem parse_sff_append (d x : bytes) :
  exists entries offset entries' offset',
    parse_sff (Some d) = Ret (entries, offset)
    /\ parse_sff (Some (d ++ x)) = Ret (entries', offset')
    /\ entries `prefix_of` entries'
    /\ offset <= offset'.
Proof.
  eexists. eexists. eexists. eexists.
  split; [apply parse_sff_data_records |].
  split; [apply parse_sff_data_records |].
  assert (Hpre : accepted_prefix d `prefix_of` accepted_prefix (d ++ x)).
  { unfold accepted_prefix, records. apply take_while_prefix.
    - apply Nat.Div0.div_le_mono. rewrite length_app. lia.
    - intros k Hk. cbn [Nat.add]. apply record_at_app. exact Hk. }
  split.
  - destruct Hpre as [rest ->]. rewrite map_app. eexists. reflexivity.
  - apply prefix_length in Hpre. unfold ENTRY_SIZE. lia.
Qed.

(** * Further properties of the sanitizer *)

Section SanitizerShape.
Context {UD : UnicodeData}.

Lemma strip_head (s : str) (c : N) :
  head (strip s) = Some c -> isspace c = false.
Proof.
  unfold strip. destruct (lstrip_head s) as [E | (d & r & E & Hd)]; rewrite E.
  - discriminate.
  - rewrite (rstrip_cons d r Hd). cbn [head]. intros [= <-]. exact Hd.
Qed.

Lemma strip_last (s : str) (c : N) :
  last (strip s) = Some c -> isspace c = false.
Proof.
  unfold strip, rstrip.
  destruct (lstrip_head (rev (lstrip s))) as [E | (d & r & E & Hd)];
    rewrite E.
  - discriminate.
  - cbn [rev]. rewrite last_snoc. intros [= <-]. exact Hd.
Qed.

Lemma strip_fixed (s : str) :
  (forall c, head s = Some c -> isspace c = false) ->
  (forall c, last s = Some c -> isspace c = false) ->
  strip s = s.
Proof.
  intros Hhead Hlast. unfold strip.
  assert (Hl : lstrip s = s).
  { destruct s as [|c r]; [reflexivity |].
    apply lstrip_fixed, Hhead. reflexivity. }
  rewrite Hl. unfold rstrip.
  destruct (rev s) as [|d t] eqn:E.
  - apply (f_equal (@rev N)) in E. rewrite rev_involutive in E.
    rewrite E. reflexivity.
  - assert (Hs : s = rev t ++ [d]).
    { apply (f_equal (@rev N)) in E. rewrite rev_involutive in E. exact E. }
    rewrite lstrip_fixed.
    + cbn [rev]. symmetry. exact Hs.
    + apply Hlast. rewrite Hs. apply last_snoc.
Qed.

Lemma lstrip_sublist (s : str) : lstrip s `sublist_of` s.
Proof.
  induction s as [|c s IH]; cbn [lstrip]; [constructor |].
  destruct (isspace c); [apply sublist_cons, IH | reflexivity].
Qed.

Lemma rstrip_sublist (s : str) : rstrip s `sublist_of` s.
Proof.
  unfold rstrip.
  assert (H : forall t : str, exists k, t = k ++ lstrip t).
  { induction t as [|c t [k IH]]; [exists []; reflexivity |].
    cbn [lstrip]. destruct (isspace c).
    - exists (c :: k). cbn [app]. f_equal. exact IH.
    - exists []. reflexivity. }
  destruct (H (rev s)) as [k Hk].
  apply (f_equal (@rev N)) in Hk. rewrite rev_involutive, rev_app_distr in Hk.
  rewrite Hk at 2. apply sublist_inserts_r. reflexivity.
Qed.

Lemma filter_sublist (f : N -> bool) (s : str) :
  List.filter f s `sublist_of` s.
Proof.
  induction s as [|c s IH]; cbn [List.filter]; [constructor |].
  destruct (f c); [apply sublist_skip | apply sublist_cons]; exact IH.
Qed.

Lemma sanitize_filename_shape (s : str) :
  sanitize_filename s <> []
  /\ Forall clean_char (sanitize_filename s)
  /\ (forall c, head (sanitize_filename s) = Some c -> isspace c = false)
  /\ (forall c, last (sanitize_filename s) = Some c -> isspace c = false).
Proof.
  split; [apply sanitize_filename_nonempty |].
  split; [apply sanitize_filename_clean |].
  unfold sanitize_filename. destruct (is_empty _).
  - split; intros c; cbn; intros [= <-]; reflexivity.
  - split; intros c; [apply strip_head | apply strip_last].
Qed.

Lemma sanitize_filename_fixed (s : str) :
  s <> [] ->
  Forall clean_char s ->
  (forall c, head s = Some c -> isspace c = false) ->
  (forall c, last s = Some c -> isspace c = false) ->
  sanitize_filename s = s.
Proof.
  intros Hne Hclean Hhead Hlast. unfold sanitize_filename.
  rewrite (filter_clean_id s Hclean), (strip_fixed s Hhead Hlast).
  destruct s; [contradiction | reflexivity].
Qed.

(** X7. The strings [sanitize_filename] leaves unchanged are exactly the
    non-empty strings of printable, non-reserved characters that neither
    start nor end with white space. *)
Theorem sanitize_filename_fixed_points (s : str) :
  sanitize_filename s = s
  <-> s <> []
      /\ Forall (fun c => isprintable c = true /\ is_reserved c = false) s
      /\ (forall c, head s = Some c -> isspace c = false)
      /\ (forall c, last s = Some c -> isspace c = false).
Proof.
  split.
  - intros H. pose proof (sanitize_filename_shape s) as Hshape.
    rewrite H in Hshape. exact Hshape.
  - intros (Hne & Hclean & Hhead & Hlast).
    apply sanitize_filename_fixed; assumption.
Qed.

(** X8. [sanitize_filename] only deletes characters, unless it returns the
    placeholder: its result is [_unnamed] or a subsequence of its input. The
    result is never empty, is no longer than the longer of the input and
    the placeholder, and neither starts nor ends with white space. *)
Theorem sanitize_filename_only_deletes (s : str) :
  (sanitize_filename s = UNNAMED \/ sanitize_filename s `sublist_of` s)
  /\ 1 <= length (sanitize_filename s) <= max (length s) 8
  /\ (forall c, head (sanitize_filename s) = Some c -> isspace c = false)
  /\ (forall c, last (sanitize_filename s) = Some c -> isspace c = false).
Proof.
  destruct (sanitize_filename_shape s) as (Hne & _ & Hhead & Hlast).
  assert (Hsub : sanitize_filename s = UNNAMED
                 \/ sanitize_filename s `sublist_of` s).
  { unfold sanitize_filename. destruct (is_empty _); [left; reflexivity |].
    right. unfold strip.
    etransitivity; [apply rstrip_sublist |].
    etransitivity; [apply lstrip_sublist |]. apply filter_sublist. }
  split; [exact Hsub |]. split; [| split; assumption].
  split.
  - destruct (sanitize_filename s); [contradiction | cbn [length]; lia].
  - destruct Hsub as [-> | Hsub]; [cbn; lia |].
    apply sublist_length in Hsub. lia.
Qed.

Lemma split_slash_length (s : str) :
  length (split_slash s)
  = S (length (List.filter (fun c => (c =? 47)%N) s)).
Proof.
  induction s as [|c s IH]; [reflexivity |].
  cbn [split_slash List.filter]. destruct (c =? 47)%N.
  - cbn [length]. rewrite IH. reflexivity.
  - destruct (split_slash s); [discriminate IH | exact IH].
Qed.

Lemma replace_backslash_slashes (s : str) :
  List.filter (fun c => (c =? 47)%N) (replace_backslash s)
  = replace_backslash
      (List.filter (fun c => (c =? 47)%N || (c =? 92)%N) s).
Proof.
  induction s as [|c s IH]; [reflexivity |].
  cbn [replace_backslash map List.filter].
  fold (replace_backslash s).
  destruct (c =? 92)%N eqn:E92.
  - apply N.eqb_eq in E92. subst c. cbn. rewrite IH. reflexivity.
  - cbn [orb]. rewrite orb_false_r. destruct (c =? 47)%N eqn:E47.
    + cbn [map]. rewrite E92. rewrite IH. reflexivity.
    + exact IH.
Qed.

(** X9. An entry name with [n] separators, slashes and backslashes alike,
    gives exactly [n + 1] path segments, so never none; no segment is
    empty, so the loop's test for an unrecoverable name holds exactly when
    every segment is the placeholder [_unnamed]. *)
Theorem entry_parts_count (e : entry) :
  length (entry_parts e)
  = S (length (List.filter (fun c => (c =? 47)%N || (c =? 92)%N)
                 (filename e)))
  /\ Forall (fun p => p <> []) (entry_parts e)
  /\ (all_unnamed (entry_parts e) = true
      <-> Forall (fun p => p = UNNAMED) (entry_parts e)).
Proof.
  assert (Hne : Forall (fun p : str => p <> []) (entry_parts e)).
  { unfold entry_parts. apply Forall_map, Forall_forall.
    intros s _. apply sanitize_filename_nonempty. }
  split; [| split; [exact Hne |]].
  - unfold entry_parts.
    rewrite length_map, split_slash_length, replace_backslash_slashes.
    unfold replace_backslash. rewrite length_map. reflexivity.
  - rewrite all_unnamed_spec. split; intros H.
    + rewrite Forall_forall in *. intros p Hp.
      destruct (H p Hp) as [Hp' | Hp']; [| exact Hp'].
      exfalso. exact (Hne p Hp Hp').
    + eapply Forall_impl; [exact H |]. intros p Hp. right. exact Hp.
Qed.

Lemma split_slash_app (a b : str) :
  Forall (fun c => c <> 47%N) a ->
  split_slash (a ++ 47%N :: b) = a :: split_slash b.
Proof.
  induction 1 as [|c a Hc Ha IH]; [reflexivity |].
  cbn [app split_slash]. apply N.eqb_neq in Hc. rewrite Hc, IH. reflexivity.
Qed.

Lemma sanitize_dots (n : nat) :
  sanitize_filename (replicate (S n) 46%N) = replicate (S n) 46%N.
Proof.
  assert (Hall : forall c, c ∈ replicate (S n) 46%N -> c = 46%N).
  { intros c Hc. apply elem_of_replicate in Hc as [-> _]. reflexivity. }
  apply sanitize_filename_fixed.
  - discriminate.
  - apply Forall_forall. intros c Hc. rewrite (Hall c Hc).
    split; reflexivity.
  - intros c Hc. apply head_Some_elem_of in Hc. rewrite (Hall c Hc).
    reflexivity.
  - intros c Hc. apply last_Some_elem_of in Hc. rewrite (Hall c Hc).
    reflexivity.
Qed.

(** X10. Dots are kept: a segment of one or more dots is returned
    unchanged, so an entry name that starts with such a segment followed by
    a slash or a backslash has it as its first path segment, and the entry
    is not skipped. *)
Theorem dot_segments_survive (n : nat) (sep : N) (rest : str) (sz : N) :
  sep = 47%N \/ sep = 92%N ->
  sanitize_filename (replicate (S n) 46%N) = replicate (S n) 46%N
  /\ entry_parts
       {| filename := replicate (S n) 46%N ++ sep :: rest; size := sz |}
     = replicate (S n) 46%N
       :: entry_parts {| filename := rest; size := sz |}
  /\ all_unnamed
       (entry_parts
          {| filename := replicate (S n) 46%N ++ sep :: rest; size := sz |})
     = false.
Proof.
  intros Hsep.
  assert (Hparts : entry_parts
                     {| filename := replicate (S n) 46%N ++ sep :: rest;
                        size := sz |}
                   = replicate (S n) 46%N
                     :: entry_parts {| filename := rest; size := sz |}).
  { unfold entry_parts. cbn [filename]. unfold replace_backslash.
    rewrite map_app. cbn [map].
    replace (if (sep =? 92)%N then 47%N else sep) with 47%N
      by (destruct Hsep as [-> | ->]; reflexivity).
    replace (map (fun c => if (c =? 92)%N then 47%N else c)
               (replicate (S n) 46%N))
      with (replicate (S n) 46%N).
    2:{ induction (S n) as [|m IH]; [reflexivity |].
        cbn [replicate map]. rewrite <- IH. reflexivity. }
    rewrite split_slash_app.
    - cbn [map]. rewrite sanitize_dots. reflexivity.
    - apply Forall_forall. intros c Hc.
      apply elem_of_replicate in Hc as [-> _]. discriminate. }
  split; [apply sanitize_dots |]. split; [exact Hparts |].
  rewrite Hparts. reflexivity.
Qed.
End SanitizerShape.

Lemma dot_segments_survive_witness :
  entry_parts (UD := replacement_ucd)
    {| filename := [46; 46; 47; 120]%N; size := 1 |}
  = [[46; 46]%N; [120%N]].
Proof.
  exact (proj1 (proj2 (dot_segments_survive (UD := replacement_ucd)
                         1 47%N [120%N] 1%N (or_introl eq_refl)))).
Defined.

Section SanitizerCollisions.
Context {UD : UnicodeData}.

Lemma sanitize_filename_insert (a b : str) (c : N) :
  isprintable c && negb (is_reserved c) = false ->
  sanitize_filename (a ++ c :: b) = sanitize_filename (a ++ b).
Proof.
  intros Hc. unfold sanitize_filename.
  rewrite !List.filter_app. cbn [List.filter]. rewrite Hc. reflexivity.
Qed.

Lemma split_slash_nonempty (s : str) : split_slash s <> [].
Proof.
  destruct s as [|c s]; [discriminate |]. cbn [split_slash].
  destruct (c =? 47)%N; [discriminate |].
  destruct (split_slash s); discriminate.
Qed.

(** A character that is not a slash stays inside one segment. *)
Lemma split_slash_insert (a b : str) (c : N) :
  c <> 47%N ->
  exists pre seg1 seg2 post,
    split_slash (a ++ c :: b) = pre ++ (seg1 ++ c :: seg2) :: post
    /\ split_slash (a ++ b) = pre ++ (seg1 ++ seg2) :: post.
Proof.
  intros Hc. apply N.eqb_neq in Hc. induction a as [|x a IH].
  - cbn [app split_slash]. rewrite Hc.
    destruct (split_slash b) as [|h t] eqn:E;
      [exfalso; exact (split_slash_nonempty b E) |].
    exists [], [], h, t. split; reflexivity.
  - destruct IH as (pre & seg1 & seg2 & post & H1 & H2).
    cbn [app split_slash]. rewrite H1, H2. destruct (x =? 47)%N.
    + exists ([] :: pre), seg1, seg2, post. split; reflexivity.
    + destruct pre as [|p0 pre]; cbn [app].
      * exists [], (x :: seg1), seg2, post. split; reflexivity.
      * exists ((x :: p0) :: pre), seg1, seg2, post. split; reflexivity.
Qed.

(** X14. Removed characters leave no trace: two names that differ only by
    one character that is reserved or not printable, and is not a
    separator, give the same path segments, hence the same output path. *)
Theorem entry_parts_collision (a b : str) (c : N) (sz1 sz2 : N) :
  isprintable c = false \/ is_reserved c = true ->
  c <> 47%N -> c <> 92%N ->
  entry_parts {| filename := a ++ c :: b; size := sz1 |}
  = entry_parts {| filename := a ++ b; size := sz2 |}.
Proof.
  intros Hc H47 H92.
  assert (Hdrop : isprintable c && negb (is_reserved c) = false).
  { destruct Hc as [-> | ->]; [reflexivity | apply andb_false_r]. }
  unfold entry_parts. cbn [filename]. unfold replace_backslash.
  rewrite !map_app. cbn [map].
  apply N.eqb_neq in H92. rewrite H92.
  destruct (split_slash_insert
              (map (fun c => if (c =? 92)%N then 47%N else c) a)
              (map (fun c => if (c =? 92)%N then 47%N else c) b) c H47)
    as (pre & seg1 & seg2 & post & -> & ->).
  rewrite !map_app. cbn [map].
  rewrite (sanitize_filename_insert seg1 seg2 c Hdrop). reflexivity.
Qed.
End SanitizerCollisions.

Lemma entry_parts_collision_witness :
  entry_parts (UD := replacement_ucd)
    {| filename := [97; 63; 46; 116; 120; 116]%N; size := 1 |}
  = entry_parts (UD := replacement_ucd)
      {| filename := name_a_txt; size := 2 |}.
Proof.
  apply (entry_parts_collision (UD := replacement_ucd)
           [97%N] [46; 116; 120; 116]%N 63%N 1%N 2%N).
  - right. reflexivity.
  - discriminate.
  - discriminate.
Defined.

(** * Further properties of the extraction loop *)

Section ExtractionFurther.
Context {UD : UnicodeData} {P FS : Type}.
Context {PL : PathLib P} {FSys : FileSystem P FS}.
Variable data : bytes.
Variable output_dir : P.

(** X11. When the loop has gone through the entries before an entry with
    a recoverable name, and creating the directories or writing the file of
    that entry fails, [extract_all] raises [OSError] at once: the files are
    what the failed operation left, the callback is not called for that
    entry (with a callback, the calls are (1, N) to (j, N) for a failure at
    index [j]), the skipped count is that of the entries before it, and no
    later entry is processed. *)
Theorem filesystem_failure_aborts (cb : bool) (entries pre post : list entry)
    (e : entry) (data_offset : nat) (fs0 fs' : FS) (w1 : world FS) :
  entries = pre ++ e :: post ->
  extract_loop data output_dir cb (length entries) 0 pre
    (World data_offset fs0 0 []) = (w1, Running) ->
  all_unnamed (entry_parts e) = false ->
  (mkdir_parents (parent (joinpath output_dir (entry_parts e))) (disk w1)
   = Failed fs'
   \/ exists fs1,
        mkdir_parents (parent (joinpath output_dir (entry_parts e))) (disk w1)
        = Done fs1
        /\ write_bytes (joinpath output_dir (entry_parts e))
             (fst (f_read data (cursor w1) (size e))) fs1
           = Failed fs') ->
  exists w,
    extract_all data output_dir cb entries data_offset fs0
    = (w, Raise OSError)
    /\ disk w = fs'
    /\ calls w = calls w1
    /\ (cb = true ->
        calls w = map (fun j => (j, length entries)) (seq 1 (length pre)))
    /\ skipped w
       = length (List.filter (fun e => all_unnamed (entry_parts e)) pre).
Proof.
  intros -> Hpre Hname Hfail.
  pose proof (extract_loop_skipped _ _ _ _ _ _ _ _ Hpre) as Hskip.
  cbn [skipped Nat.add] in Hskip.
  assert (Hcalls : cb = true ->
            calls w1
            = map (fun j => (j, length (pre ++ e :: post)))
                (seq 1 (length pre))).
  { intros ->. rewrite (extract_loop_calls _ _ _ _ _ _ _ Hpre). reflexivity. }
  unfold extract_all. rewrite extract_loop_app, Hpre.
  cbn [extract_loop Nat.add]. unfold extract_entry, f_read in *.
  cbn [fst] in Hfail. rewrite Hname.
  destruct Hfail as [Hmk | (fs1 & Hmk & Hwr)].
  - rewrite Hmk. eexists. split; [reflexivity |]. cbn [disk calls skipped].
    repeat split; assumption.
  - rewrite Hmk, Hwr. eexists. split; [reflexivity |].
    cbn [disk calls skipped]. repeat split; assumption.
Qed.

(** X12. The source handle never moves back and never passes the end of
    the source (unless the payload offset already lies beyond it). After
    a loop that went through all entries it stands at the payload offset
    plus the declared sizes, or at the end of the source when the source
    is shorter. *)
Theorem cursor_after_loop (cb : bool) (total : nat) (entries : list entry) :
  forall (i : nat) (w w' : world FS) (st : status),
    extract_loop data output_dir cb total i entries w = (w', st) ->
    cursor w <= cursor w'
    /\ cursor w' <= max (cursor w) (length data)
    /\ (st = Running ->
        cursor w <= length data ->
        cursor w' = min (cursor w + sum_sizes entries) (length data))
    /\ (st = Running -> length data < cursor w -> cursor w' = cursor w).
Proof.
  induction entries as [|e entries IH]; intros i w w' st Hrun.
  - cbn in Hrun. injection Hrun as <- <-. cbn [sum_sizes foldr]. lia.
  - cbn [extract_loop] in Hrun. cbn [sum_sizes foldr].
    fold (sum_sizes entries).
    pose proof (extract_entry_cursor data output_dir cb total i e w) as Hc.
    destruct (extract_entry _ _ _ _ _ _ _) as [w1 [|x]]; cbn [fst] in Hc.
    + apply IH in Hrun as (H1 & H2 & H3 & H4).
      split; [lia |]. split; [lia |]. split.
      * intros -> Hle. specialize (H3 eq_refl). lia.
      * intros -> Hgt. specialize (H4 eq_refl). lia.
    + injection Hrun as <- <-. split; [lia |]. split; [lia |].
      split; discriminate.
Qed.

End ExtractionFurther.

Lemma filesystem_failure_aborts_witness :
  let w1 := World 5 [(out_dir, Dir);
                     (out_dir ++ [name_a_txt], File [x48; x45; x4c; x4c; x4f])]
              0 [(1, 2)] in
  extract_loop (UD := replacement_ucd) payload_hello_xyz out_dir true 2 0
    [{| filename := name_a_txt; size := 5 |}] (World 0 ([] : memfs) 0 [])
  = (w1, Running)
  /\ exists w,
       extract_all (UD := replacement_ucd) payload_hello_xyz out_dir true
         clash_entries 0 ([] : memfs)
       = (w, Raise OSError)
       /\ disk w = disk w1
       /\ calls w = [(1, 2)].
Proof.
  cbn zeta.
  assert (Hpre : extract_loop (UD := replacement_ucd) payload_hello_xyz
                   out_dir true (length clash_entries) 0
                   [{| filename := name_a_txt; size := 5 |}]
                   (World 0 ([] : memfs) 0 [])
                 = (World 5
                      [(out_dir, Dir);
                       (out_dir ++ [name_a_txt],
                        File [x48; x45; x4c; x4c; x4f])]
                      0 [(1, 2)],
                    Running))
    by (vm_compute; reflexivity).
  split; [exact Hpre |].
  destruct (filesystem_failure_aborts (UD := replacement_ucd)
              payload_hello_xyz out_dir true clash_entries
              [{| filename := name_a_txt; size := 5 |}] []
              {| filename := [97; 46; 116; 120; 116; 47; 120]%N; size := 3 |}
              0 []
              [(out_dir, Dir);
               (out_dir ++ [name_a_txt], File [x48; x45; x4c; x4c; x4f])]
              _ eq_refl Hpre ltac:(vm_compute; reflexivity)
              ltac:(left; vm_compute; reflexivity))
    as (w & Hrun & Hdisk & Hcalls & _).
  exists w. split; [exact Hrun |]. split; [exact Hdisk | exact Hcalls].
Defined.

Lemma cursor_after_loop_witness :
  let r := extract_loop (UD := replacement_ucd) short_payload out_dir true 2 0
             short_entries (World 0 ([] : memfs) 0 []) in
  snd r = Running /\ cursor (fst r) = 45.
Proof.
  cbn zeta.
  assert (H : extract_loop (UD := replacement_ucd) short_payload out_dir true
                2 0 short_entries (World 0 ([] : memfs) 0 [])
              = (fst (extract_loop (UD := replacement_ucd) short_payload
                        out_dir true 2 0 short_entries
                        (World 0 ([] : memfs) 0 [])),
                 Running))
    by (vm_compute; reflexivity).
  split; [vm_compute; reflexivity |].
  destruct (cursor_after_loop (UD := replacement_ucd) short_payload out_dir
              true 2 short_entries 0 _ _ _ H) as (_ & _ & Hfull & _).
  rewrite (Hfull eq_refl ltac:(vm_compute; lia)).
  vm_compute. reflexivity.
Defined.
